(** * GenieClip RST load calculator: the calculation core of [App.jsx]

    The pure helpers of the calculator ([calcBaseAssemblyPsf],
    [calcCloudAvgPsf], [calcCombos], [firstPassing]) and the derived values
    of the [App] component ([estimatedClipsOnGrid], [dedicatedCloudClips],
    [totalClips], [dedicatedRows]) are embedded as Rocq functions over a
    model of JavaScript numbers, and the properties of the specification
    are stated and settled on them.

    Layout:
    - [Round]: rounding of a rational to the nearest binary64 value;
    - [JsNum]: JavaScript numbers (IEEE 754 binary64) and their operators;
    - [JsArray]: [Array.prototype.sort], [Set] de-duplication;
    - [Calc]: the functions of the source;
    - the properties. *)

From Stdlib Require Import ZArith QArith Qround Qabs Qpower Qreduction SpecFloat.
From Stdlib Require Import Lqa Lia List Bool Ascii String Permutation Sorted.
From Stdlib Require Import SetoidList SetoidPermutation.
Import ListNotations.

Local Open Scope Q_scope.

(** ** Rounding to binary64 *)

Module Round.

(** [two e] is the rational [2^e]. *)
Definition two (e : Z) : Q := 2 ^ e.

Lemma two_pos e : 0 < two e.
Proof. apply Qpower_0_lt. reflexivity. Qed.

Lemma two_plus a b : two (a + b) == two a * two b.
Proof. unfold two. apply Qpower_plus. discriminate. Qed.

Lemma two_succ a : two (a + 1) == 2 * two a.
Proof. rewrite two_plus. unfold two at 2. simpl. ring. Qed.

Lemma two_le a b : (a <= b)%Z -> two a <= two b.
Proof. intros. apply Qpower_le_compat_l; [assumption | discriminate]. Qed.

Lemma two_lt a b : (a < b)%Z -> two a < two b.
Proof. intros. apply Qpower_lt_compat_l; [assumption | reflexivity]. Qed.

Lemma two_lt_inv a b : two a < two b -> (a < b)%Z.
Proof. intros. apply (Qpower_lt_compat_l_inv 2); [assumption | reflexivity]. Qed.

Lemma two_Z n : (0 <= n)%Z -> two n == inject_Z (2 ^ n).
Proof. intros. unfold two. now rewrite Zpower_Qpower. Qed.

(** *** Round to the nearest integer, ties to even *)

Definition rne (x : Q) : Z :=
  let f := Qfloor x in
  match Qcompare (x - inject_Z f) (1 # 2) with
  | Lt => f
  | Gt => (f + 1)%Z
  | Eq => if Z.even f then f else (f + 1)%Z
  end.

(** [nearest x z]: [z] is the integer nearest to [x], the even one at a tie. *)
Definition nearest (x : Q) (z : Z) : Prop :=
  x - (1 # 2) <= inject_Z z <= x + (1 # 2) /\
  (inject_Z z == x - (1 # 2) \/ inject_Z z == x + (1 # 2) -> Z.even z = true).

Lemma inject_Z_succ f : inject_Z (f + 1) == inject_Z f + 1.
Proof. rewrite inject_Z_plus. reflexivity. Qed.

Lemma even_plus1 f : Z.even (f + 1) = negb (Z.even f).
Proof. now rewrite Z.add_1_r, Z.even_succ, <- Z.negb_even. Qed.

Lemma rne_nearest x : nearest x (rne x).
Proof.
  unfold nearest, rne.
  pose proof (Qfloor_le x) as Hlo. pose proof (Qlt_floor x) as Hhi.
  rewrite inject_Z_succ in Hhi.
  destruct (Qcompare (x - inject_Z (Qfloor x)) (1 # 2)) eqn:C.
  - apply Qeq_alt in C.
    destruct (Z.even (Qfloor x)) eqn:E.
    + split; [lra | intros _; exact E].
    + rewrite inject_Z_succ. split; [lra |].
      intros _. rewrite even_plus1, E. reflexivity.
  - apply Qlt_alt in C. split; [lra | intros [H | H]; lra].
  - apply Qgt_alt in C. rewrite inject_Z_succ. split; [lra | intros [H | H]; lra].
Qed.

Lemma nearest_unique x z1 z2 : nearest x z1 -> nearest x z2 -> z1 = z2.
Proof.
  intros [[L1 U1] T1] [[L2 U2] T2].
  assert (D1 : inject_Z z1 <= inject_Z z2 + 1) by lra.
  assert (D2 : inject_Z z2 <= inject_Z z1 + 1) by lra.
  rewrite <- inject_Z_succ, <- Zle_Qle in D1, D2.
  destruct (Z.eq_dec z1 z2) as [|N]; [assumption | exfalso].
  assert (C : z1 = (z2 + 1)%Z \/ z2 = (z1 + 1)%Z) by lia.
  destruct C as [-> | ->].
  - rewrite inject_Z_succ in *.
    assert (E2 : Z.even z2 = true) by (apply T2; left; lra).
    assert (E1 : Z.even (z2 + 1) = true) by (apply T1; right; lra).
    rewrite even_plus1, E2 in E1. discriminate.
  - rewrite inject_Z_succ in *.
    assert (E1 : Z.even z1 = true) by (apply T1; left; lra).
    assert (E2 : Z.even (z1 + 1) = true) by (apply T2; right; lra).
    rewrite even_plus1, E1 in E2. discriminate.
Qed.

Lemma rne_unique x z : nearest x z -> rne x = z.
Proof. intros. eapply nearest_unique; [apply rne_nearest | eassumption]. Qed.

Lemma rne_Z z : rne (inject_Z z) = z.
Proof.
  apply rne_unique. split; [lra | intros [H | H]; lra].
Qed.

Lemma rne_opp x : rne (- x) = (- rne x)%Z.
Proof.
  apply rne_unique. destruct (rne_nearest x) as [[L U] T].
  split.
  - rewrite inject_Z_opp. lra.
  - rewrite inject_Z_opp, Z.even_opp. intros [H | H]; apply T; lra.
Qed.

Lemma rne_mono x y : x <= y -> (rne x <= rne y)%Z.
Proof.
  intros H.
  destruct (rne_nearest x) as [[Lx Ux] Tx].
  destruct (rne_nearest y) as [[Ly Uy] Ty].
  destruct (Z_le_gt_dec (rne x) (rne y)) as [|G]; [assumption | exfalso].
  assert (G' : inject_Z (rne y) + 1 <= inject_Z (rne x))
    by (rewrite <- inject_Z_succ, <- Zle_Qle; lia).
  assert (E : rne x = (rne y + 1)%Z).
  { assert (inject_Z (rne x) <= inject_Z (rne y) + 1) by lra.
    rewrite <- inject_Z_succ, <- Zle_Qle in H0. lia. }
  assert (Ex : Z.even (rne x) = true) by (apply Tx; right; rewrite E, inject_Z_succ in *; lra).
  assert (Ey : Z.even (rne y) = true) by (apply Ty; left; rewrite E, inject_Z_succ in *; lra).
  rewrite E, even_plus1, Ey in Ex. discriminate.
Qed.

Lemma rne_comp x y : x == y -> rne x = rne y.
Proof.
  intros H. apply Z.le_antisymm; apply rne_mono; rewrite H; apply Qle_refl.
Qed.

(** *** Binary exponent of a positive rational *)

Lemma two_inv e : two e * two (- e) == 1.
Proof. rewrite <- two_plus, Z.add_opp_diag_r. reflexivity. Qed.

(** [ilog2 a] is [floor (log2 a)] for [a > 0]. *)
Definition ilog2 (a : Q) : Z :=
  let k := (Z.log2 (Qnum a) - Z.log2 (Zpos (Qden a)))%Z in
  if Qle_bool (two k) a then k else (k - 1)%Z.

Lemma log2_bounds (n : Z) :
  (0 < n)%Z -> two (Z.log2 n) <= inject_Z n /\ inject_Z n < 2 * two (Z.log2 n).
Proof.
  intros H. pose proof (Z.log2_spec n H) as [L U].
  pose proof (Z.log2_nonneg n) as P.
  rewrite <- two_succ, !two_Z by lia.
  rewrite <- Zle_Qle, <- Zlt_Qlt. split; [assumption | now rewrite Z.add_1_r].
Qed.

Lemma ilog2_spec a : 0 < a -> two (ilog2 a) <= a /\ a < two (ilog2 a + 1).
Proof.
  intros Ha. unfold ilog2.
  set (ln := Z.log2 (Qnum a)). set (ld := Z.log2 (Zpos (Qden a))).
  assert (Hn : (0 < Qnum a)%Z).
  { destruct a as [n d]. unfold Qlt in Ha. simpl in *. lia. }
  destruct (log2_bounds (Qnum a) Hn) as [Ln Un]. fold ln in Ln, Un.
  destruct (log2_bounds (Zpos (Qden a)) eq_refl) as [Ld Ud]. fold ld in Ld, Ud.
  assert (E : a * inject_Z (Zpos (Qden a)) == inject_Z (Qnum a)).
  { destruct a as [n d]. simpl. rewrite (Qmake_Qdiv n d). field. discriminate. }
  assert (K : two ln == two (ln - ld) * two ld).
  { rewrite <- two_plus. now replace (ln - ld + ld)%Z with ln by ring. }
  pose proof (two_pos (ln - ld)) as Pk. pose proof (two_pos ld) as Pl.
  set (D := inject_Z (Zpos (Qden a))) in *. set (N := inject_Z (Qnum a)) in *.
  assert (PD : 0 < D) by lra.
  destruct (Qle_bool (two (ln - ld)) a) eqn:B.
  - apply Qle_bool_iff in B. split; [assumption |].
    rewrite two_succ. nra.
  - assert (B' : a < two (ln - ld)).
    { apply Qnot_le_lt. intros C. apply Qle_bool_iff in C. congruence. }
    replace (ln - ld - 1 + 1)%Z with (ln - ld)%Z by ring.
    split; [| assumption].
    assert (S : two (ln - ld) == 2 * two (ln - ld - 1)).
    { rewrite <- two_succ. now replace (ln - ld - 1 + 1)%Z with (ln - ld)%Z by ring. }
    nra.
Qed.

Lemma ilog2_unique a k : two k <= a -> a < two (k + 1) -> ilog2 a = k.
Proof.
  intros L U.
  assert (Ha : 0 < a) by (pose proof (two_pos k); lra).
  destruct (ilog2_spec a Ha) as [L' U'].
  assert (two (ilog2 a) < two (k + 1)) by lra.
  assert (two k < two (ilog2 a + 1)) by lra.
  apply two_lt_inv in H, H0. lia.
Qed.

Lemma ilog2_mono a b : 0 < a -> a <= b -> (ilog2 a <= ilog2 b)%Z.
Proof.
  intros Ha H.
  destruct (ilog2_spec a Ha) as [La Ua].
  destruct (ilog2_spec b) as [Lb Ub]; [lra |].
  assert (two (ilog2 a) < two (ilog2 b + 1)) by lra.
  apply two_lt_inv in H0. lia.
Qed.

(** *** The nearest binary64 magnitude

    A binary64 number is [m * 2^e] with [|m| < 2^53] and [-1074 <= e <= 971].
    For [a > 0], [expo a] is the exponent of the binade of [a] (clamped to the
    subnormal exponent), [mant a] the integer significand after rounding to
    nearest, ties to even, and [rmag a] the rounded value, before the
    overflow test. *)

Definition expo (a : Q) : Z := (Z.max (ilog2 a) (-1022) - 52)%Z.
Definition mant (a : Q) : Z := rne (a * two (- expo a)).
Definition rmag (a : Q) : Q := inject_Z (mant a) * two (expo a).

Lemma expo_min a : (-1074 <= expo a)%Z.
Proof. unfold expo. lia. Qed.

Lemma expo_mono a b : 0 < a -> a <= b -> (expo a <= expo b)%Z.
Proof. intros Ha H. pose proof (ilog2_mono a b Ha H). unfold expo. lia. Qed.

Lemma mant_nonneg a : 0 <= a -> (0 <= mant a)%Z.
Proof.
  intros Ha. unfold mant. rewrite <- (rne_Z 0). apply rne_mono.
  pose proof (two_pos (- expo a)). change (inject_Z 0) with 0. nra.
Qed.

Lemma mant_upper a : 0 < a -> (mant a <= 2 ^ 53)%Z.
Proof.
  intros Ha. unfold mant. rewrite <- (rne_Z (2 ^ 53)). apply rne_mono.
  destruct (ilog2_spec a Ha) as [_ U].
  assert (a < two (expo a + 53)).
  { eapply Qlt_le_trans; [exact U |]. apply two_le. unfold expo. lia. }
  rewrite <- two_Z by lia.
  rewrite two_plus in H. pose proof (two_inv (expo a)).
  pose proof (two_pos (expo a)). pose proof (two_pos (- expo a)).
  pose proof (two_pos 53). nra.
Qed.

Lemma mant_lower a : 0 < a -> (-1022 <= ilog2 a)%Z -> (2 ^ 52 <= mant a)%Z.
Proof.
  intros Ha Hn. unfold mant. rewrite <- (rne_Z (2 ^ 52)). apply rne_mono.
  destruct (ilog2_spec a Ha) as [L _].
  assert (E : ilog2 a = (expo a + 52)%Z) by (unfold expo; lia).
  rewrite E, two_plus in L. rewrite <- two_Z by lia.
  pose proof (two_inv (expo a)).
  pose proof (two_pos (expo a)). pose proof (two_pos (- expo a)).
  pose proof (two_pos 52). nra.
Qed.

Lemma rmag_nonneg a : 0 <= a -> 0 <= rmag a.
Proof.
  intros Ha. unfold rmag. pose proof (mant_nonneg a Ha) as M.
  rewrite Zle_Qle in M. pose proof (two_pos (expo a)).
  change (inject_Z 0) with 0 in M. nra.
Qed.

Lemma rmag_mono a b : 0 < a -> a <= b -> rmag a <= rmag b.
Proof.
  intros Ha H. assert (Hb : 0 < b) by lra.
  pose proof (expo_mono a b Ha H) as He.
  pose proof (two_pos (expo a)) as Pa. pose proof (two_pos (expo b)) as Pb.
  destruct (Z.eq_dec (expo a) (expo b)) as [E | N].
  - unfold rmag, mant. rewrite E.
    assert (M : (rne (a * two (- expo b)) <= rne (b * two (- expo b)))%Z).
    { apply rne_mono. pose proof (two_pos (- expo b)). nra. }
    rewrite Zle_Qle in M. nra.
  - assert (Lt : (expo a + 1 <= expo b)%Z) by lia.
    assert (Hn : (-1022 <= ilog2 b)%Z) by (unfold expo in *; lia).
    pose proof (mant_upper a Ha) as Ma. pose proof (mant_lower b Hb Hn) as Mb.
    rewrite Zle_Qle in Ma, Mb. rewrite <- !two_Z in Ma, Mb by lia.
    unfold rmag.
    apply Qle_trans with (two 53 * two (expo a)); [nra |].
    apply Qle_trans with (two 52 * two (expo b)); [| nra].
    rewrite <- !two_plus. apply two_le. lia.
Qed.

Lemma rmag_comp a b : a == b -> 0 < a -> rmag a == rmag b.
Proof.
  intros E Ha. apply Qle_antisym; apply rmag_mono; rewrite ?E; lra.
Qed.

(** Every rounded magnitude is a multiple of [2^-1074], the least positive
    binary64 value. *)
Lemma two_split e k : (k <= e)%Z -> two e == inject_Z (2 ^ (e - k)) * two k.
Proof.
  intros H. rewrite <- two_Z by lia. rewrite <- two_plus.
  now replace (e - k + k)%Z with e by ring.
Qed.

Lemma rmag_grid a : exists z, rmag a == inject_Z z * two (-1074).
Proof.
  exists (mant a * 2 ^ (expo a + 1074))%Z. unfold rmag.
  rewrite (two_split (expo a) (-1074)) by apply expo_min.
  rewrite inject_Z_mult.
  replace (expo a - -1074)%Z with (expo a + 1074)%Z by ring. ring.
Qed.

(** Above 36 the next binary64 value is [36 + 2^-47]. *)
Lemma rmag_gap36 a : 0 < a -> 36 < rmag a -> 36 + two (-47) <= rmag a.
Proof.
  intros Ha H. unfold rmag in *.
  pose proof (mant_upper a Ha) as U. pose proof (mant_nonneg a (Qlt_le_weak _ _ Ha)) as L.
  destruct (Z_le_gt_dec (expo a) (-48)) as [Hs | Hl].
  - exfalso. rewrite Zle_Qle in U, L. rewrite <- two_Z in U by lia.
    pose proof (two_le (expo a) (-48) Hs) as T. pose proof (two_pos (expo a)).
    assert (E : two 53 * two (-48) == 32) by (rewrite <- two_plus; reflexivity).
    change (inject_Z 0) with 0 in L.
    pose proof (two_pos 53). nra.
  - rewrite (two_split (expo a) (-47)) in * by lia.
    set (k := (mant a * 2 ^ (expo a - -47))%Z).
    assert (K : inject_Z (mant a) * (inject_Z (2 ^ (expo a - -47)) * two (-47))
                == inject_Z k * two (-47)).
    { unfold k. rewrite inject_Z_mult. ring. }
    rewrite K in *.
    assert (T : 36 == inject_Z (36 * 2 ^ 47) * two (-47)).
    { rewrite inject_Z_mult, <- two_Z by lia.
      rewrite <- Qmult_assoc, <- two_plus. reflexivity. }
    pose proof (two_pos (-47)) as P.
    assert (G : (36 * 2 ^ 47 < k)%Z).
    { rewrite Zlt_Qlt. nra. }
    assert (G' : (36 * 2 ^ 47 + 1 <= k)%Z) by lia.
    rewrite Zle_Qle, inject_Z_plus in G'. change (inject_Z 1) with 1 in G'. nra.
Qed.

End Round.

(** ** JavaScript numbers *)

Module JsNum.
Import Round.

(** A JavaScript number is an IEEE 754 binary64 value.  Finite values are
    kept as the rational they denote; every operator computes the exact
    rational result and rounds it to the nearest binary64 value (ties to
    even), overflowing to an infinity.  [NZero] is the negative zero. *)
Inductive num : Type :=
| NaN
| Inf (neg : bool)
| NZero
| Fin (q : Q).

Definition val (x : num) : Q := match x with Fin q => q | _ => 0 end.

Definition sign (x : num) : bool :=
  match x with
  | NaN => false
  | Inf s => s
  | NZero => true
  | Fin q => negb (Qle_bool 0 q)
  end.

Definition isZero (x : num) : bool :=
  match x with
  | NZero => true
  | Fin q => Qeq_bool q 0
  | _ => false
  end.

Definition zero (s : bool) : num := if s then NZero else Fin 0.

(** [huge] is [2^1024], the least magnitude that rounds to an infinity. *)
Definition huge : Q := two 1024.

(** [round s q]: the binary64 value nearest to [q]; [s] is the sign of the
    zero returned when [q] is exactly zero. *)
Definition round (s : bool) (q : Q) : num :=
  match Qcompare q 0 with
  | Eq => zero s
  | Gt => let v := rmag q in
          if Qle_bool huge v then Inf false else Fin (Qred v)
  | Lt => let v := rmag (- q) in
          if Qle_bool huge v then Inf true
          else if Qeq_bool v 0 then NZero else Fin (Qred (- v))
  end.

(** A numeric literal of the source denotes the nearest binary64 value. *)
Definition lit (q : Q) : num := round false q.

(** [isFinite(x)] *)
Definition isFinite (x : num) : bool :=
  match x with
  | Fin _ | NZero => true
  | _ => false
  end.

(** [x < y] *)
Definition ltb (x y : num) : bool :=
  match x, y with
  | NaN, _ | _, NaN => false
  | Inf sx, Inf sy => sx && negb sy
  | Inf sx, _ => sx
  | _, Inf sy => negb sy
  | _, _ => negb (Qle_bool (val y) (val x))
  end.

(** [x <= y] *)
Definition leb (x y : num) : bool :=
  match x, y with
  | NaN, _ | _, NaN => false
  | Inf sx, Inf sy => sx || negb sy
  | Inf sx, _ => sx
  | _, Inf sy => negb sy
  | _, _ => Qle_bool (val x) (val y)
  end.

(** [x > y] and [x >= y] *)
Definition gtb (x y : num) : bool := ltb y x.
Definition geb (x y : num) : bool := leb y x.

(** [x === y] on numbers: NaN differs from itself, [+0] equals [-0]. *)
Definition eqb (x y : num) : bool :=
  match x, y with
  | NaN, _ | _, NaN => false
  | Inf sx, Inf sy => Bool.eqb sx sy
  | Inf _, _ | _, Inf _ => false
  | _, _ => Qeq_bool (val x) (val y)
  end.

(** [-x] *)
Definition neg (x : num) : num :=
  match x with
  | NaN => NaN
  | Inf s => Inf (negb s)
  | NZero => Fin 0
  | Fin q => if Qeq_bool q 0 then NZero else Fin (- q)
  end.

(** [x + y] *)
Definition add (x y : num) : num :=
  match x, y with
  | NaN, _ | _, NaN => NaN
  | Inf sx, Inf sy => if Bool.eqb sx sy then Inf sx else NaN
  | Inf sx, _ => Inf sx
  | _, Inf sy => Inf sy
  | _, _ => round (sign x && sign y) (val x + val y)
  end.

(** [x - y] *)
Definition sub (x y : num) : num := add x (neg y).

(** [x * y] *)
Definition mul (x y : num) : num :=
  match x, y with
  | NaN, _ | _, NaN => NaN
  | Inf sx, Inf sy => Inf (xorb sx sy)
  | Inf sx, _ => if isZero y then NaN else Inf (xorb sx (sign y))
  | _, Inf sy => if isZero x then NaN else Inf (xorb (sign x) sy)
  | _, _ => round (xorb (sign x) (sign y)) (val x * val y)
  end.

(** [x / y] *)
Definition div (x y : num) : num :=
  match x, y with
  | NaN, _ | _, NaN => NaN
  | Inf _, Inf _ => NaN
  | Inf sx, _ => Inf (xorb sx (sign y))
  | _, Inf sy => zero (xorb (sign x) sy)
  | _, _ =>
      if isZero y then (if isZero x then NaN else Inf (xorb (sign x) (sign y)))
      else round (xorb (sign x) (sign y)) (val x / val y)
  end.

(** [Math.max(x, y)]: NaN if either is NaN; [+0] is larger than [-0]. *)
Definition Math_max (x y : num) : num :=
  match x, y with
  | NaN, _ | _, NaN => NaN
  | _, _ => if ltb x y then y
            else if ltb y x then x
            else match x with NZero => y | _ => x end
  end.

(** [Math.ceil(x)]: the least integer not below [x]; a value in [(-1, 0)]
    gives [-0]. *)
Definition Math_ceil (x : num) : num :=
  match x with
  | Fin q => let c := Qceiling q in
             if Z.eqb c 0 && negb (Qle_bool 0 q) then NZero else Fin (inject_Z c)
  | _ => x
  end.

(** SameValueZero, the equality of [Set]: NaN equals NaN, [+0] equals [-0]. *)
Definition sameValueZero (x y : num) : bool :=
  match x, y with
  | NaN, NaN => true
  | Inf sx, Inf sy => Bool.eqb sx sy
  | (NZero | Fin _), (NZero | Fin _) => Qeq_bool (val x) (val y)
  | _, _ => false
  end.

(** [binary64 x]: [x] is a value a JavaScript number can hold. *)
Definition binary64 (x : num) : bool :=
  match x with
  | Fin q => match round false q with
             | Fin q' => Qeq_bool q q'
             | _ => false
             end
  | _ => true
  end.

(** *** The order on numbers *)

Lemma Qle_bool_false x y : Qle_bool x y = false <-> y < x.
Proof.
  split; intros H.
  - apply Qnot_le_lt. intros C. apply Qle_bool_iff in C. congruence.
  - destruct (Qle_bool x y) eqn:E; [| reflexivity].
    apply Qle_bool_iff in E. lra.
Qed.

Lemma Qeq_bool_false x y : Qeq_bool x y = false <-> ~ x == y.
Proof.
  split; intros H.
  - intros C. apply Qeq_bool_iff in C. congruence.
  - destruct (Qeq_bool x y) eqn:E; [| reflexivity].
    apply Qeq_bool_iff in E. contradiction.
Qed.

(** Turns the boolean comparisons of rationals in the context and the goal
    into propositions. *)
Ltac qbool :=
  repeat match goal with
  | H : Qle_bool _ _ = true |- _ => apply Qle_bool_iff in H
  | H : Qle_bool _ _ = false |- _ => apply Qle_bool_false in H
  | H : Qeq_bool _ _ = true |- _ => apply Qeq_bool_iff in H
  | H : Qeq_bool _ _ = false |- _ => apply Qeq_bool_false in H
  | H : negb _ = true |- _ => apply negb_true_iff in H
  | H : negb _ = false |- _ => apply negb_false_iff in H
  | |- Qle_bool _ _ = true => apply Qle_bool_iff
  | |- Qle_bool _ _ = false => apply Qle_bool_false
  | |- Qeq_bool _ _ = true => apply Qeq_bool_iff
  | |- Qeq_bool _ _ = false => apply Qeq_bool_false
  | |- negb _ = true => apply negb_true_iff
  | |- negb _ = false => apply negb_false_iff
  end.

Lemma leb_trans x y z : leb x y = true -> leb y z = true -> leb x z = true.
Proof.
  destruct x as [| [] | | a], y as [| [] | | b], z as [| [] | | c];
    simpl; intros H1 H2; try discriminate; try reflexivity; qbool; lra.
Qed.

Lemma ltb_leb x y : ltb x y = true -> leb x y = true.
Proof.
  destruct x as [| [] | | a], y as [| [] | | b];
    simpl; intros H; try discriminate; try reflexivity; qbool; lra.
Qed.

Lemma leb_ltb_trans x y z : leb x y = true -> ltb y z = true -> ltb x z = true.
Proof.
  destruct x as [| [] | | a], y as [| [] | | b], z as [| [] | | c];
    simpl; intros H1 H2; try discriminate; try reflexivity; qbool; lra.
Qed.

Lemma ltb_leb_trans x y z : ltb x y = true -> leb y z = true -> ltb x z = true.
Proof.
  destruct x as [| [] | | a], y as [| [] | | b], z as [| [] | | c];
    simpl; intros H1 H2; try discriminate; try reflexivity; qbool; lra.
Qed.

(** The order is total away from NaN. *)
Lemma ltb_false_leb x y :
  x <> NaN -> y <> NaN -> ltb x y = false -> leb y x = true.
Proof.
  destruct x as [| [] | | a], y as [| [] | | b];
    simpl; intros Hx Hy H; try congruence; qbool; lra.
Qed.

Lemma leb_ltb_false x y : leb x y = true -> ltb y x = false.
Proof.
  destruct x as [| [] | | a], y as [| [] | | b];
    simpl; intros H; try discriminate; try reflexivity; qbool; lra.
Qed.

Lemma leb_notNaN_l x y : leb x y = true -> x <> NaN.
Proof. destruct x; simpl; congruence. Qed.

Lemma leb_notNaN_r x y : leb x y = true -> y <> NaN.
Proof. destruct x as [| [] | |], y; simpl; congruence. Qed.

Lemma ltb_notNaN_l x y : ltb x y = true -> x <> NaN.
Proof. destruct x; simpl; congruence. Qed.

Lemma ltb_notNaN_r x y : ltb x y = true -> y <> NaN.
Proof. destruct x as [| [] | |], y; simpl; congruence. Qed.

(** *** Rounding is monotone *)

(** The rounded value of [q], before the overflow test. *)
Definition rval (q : Q) : Q :=
  match Qcompare q 0 with
  | Eq => 0
  | Gt => rmag q
  | Lt => - rmag (- q)
  end.

Lemma rval_sign q :
  (q < 0 /\ rval q = - rmag (- q)) \/ (q == 0 /\ rval q = 0) \/
  (0 < q /\ rval q = rmag q).
Proof.
  unfold rval. destruct (Qcompare q 0) eqn:C.
  - apply Qeq_alt in C. auto.
  - apply Qlt_alt in C. auto.
  - apply Qgt_alt in C. auto.
Qed.

Lemma rval_mono q1 q2 : q1 <= q2 -> rval q1 <= rval q2.
Proof.
  intros H.
  destruct (rval_sign q1) as [[S1 ->] | [[S1 ->] | [S1 ->]]],
           (rval_sign q2) as [[S2 ->] | [[S2 ->] | [S2 ->]]]; try lra.
  - assert (rmag (- q2) <= rmag (- q1)) by (apply rmag_mono; lra). lra.
  - assert (0 <= rmag (- q1)) by (apply rmag_nonneg; lra). lra.
  - assert (0 <= rmag (- q1)) by (apply rmag_nonneg; lra).
    assert (0 <= rmag q2) by (apply rmag_nonneg; lra). lra.
  - assert (0 <= rmag q2) by (apply rmag_nonneg; lra). lra.
  - apply rmag_mono; lra.
Qed.

Lemma huge_pos : 0 < huge.
Proof. apply two_pos. Qed.

(** [approx r v]: the number [r] is what the rounded value [v] becomes once
    the overflow test is applied. *)
Definition approx (r : num) (v : Q) : Prop :=
  match r with
  | NaN => False
  | Inf true => v <= - huge
  | Inf false => huge <= v
  | NZero => v == 0
  | Fin w => w == v /\ - huge < v /\ v < huge
  end.

Lemma round_approx s q : approx (round s q) (rval q).
Proof.
  pose proof huge_pos as P.
  unfold round, rval. destruct (Qcompare q 0) eqn:C.
  - destruct s; cbn [approx zero]; lra.
  - apply Qlt_alt in C.
    assert (0 <= rmag (- q)) by (apply rmag_nonneg; lra).
    destruct (Qle_bool huge (rmag (- q))) eqn:B; cbn [approx]; qbool; [lra |].
    destruct (Qeq_bool (rmag (- q)) 0) eqn:Z; cbn [approx]; qbool; [lra |].
    rewrite Qred_correct. lra.
  - apply Qgt_alt in C.
    assert (0 <= rmag q) by (apply rmag_nonneg; lra).
    destruct (Qle_bool huge (rmag q)) eqn:B; cbn [approx]; qbool; [lra |].
    rewrite Qred_correct. lra.
Qed.

Lemma approx_leb r1 v1 r2 v2 :
  approx r1 v1 -> approx r2 v2 -> v1 <= v2 -> leb r1 r2 = true.
Proof.
  pose proof huge_pos as P.
  destruct r1 as [| [] | | a], r2 as [| [] | | b];
    simpl; intros H1 H2 H; try contradiction; try reflexivity; qbool; lra.
Qed.

Lemma round_mono s1 s2 q1 q2 :
  q1 <= q2 -> leb (round s1 q1) (round s2 q2) = true.
Proof.
  intros H. eapply approx_leb; [apply round_approx .. | now apply rval_mono].
Qed.

Lemma round_notNaN s q : round s q <> NaN.
Proof. pose proof (round_approx s q) as A. intros E. now rewrite E in A. Qed.

Lemma round_comp s q1 q2 : q1 == q2 -> round s q1 = round s q2.
Proof.
  intros E. unfold round.
  assert (C : Qcompare q1 0 = Qcompare q2 0) by now rewrite E.
  rewrite <- C. destruct (Qcompare q1 0) eqn:D; [reflexivity | |].
  - apply Qlt_alt in D.
    assert (R : rmag (- q1) == rmag (- q2)) by (apply rmag_comp; lra).
    rewrite <- (Qleb_comp _ _ (Qeq_refl huge) _ _ R).
    rewrite <- (Qeqb_comp _ _ R _ _ (Qeq_refl 0)).
    now rewrite (Qred_complete (- rmag (- q1)) (- rmag (- q2))) by now rewrite R.
  - apply Qgt_alt in D.
    assert (R : rmag q1 == rmag q2) by (apply rmag_comp; lra).
    rewrite <- (Qleb_comp _ _ (Qeq_refl huge) _ _ R).
    now rewrite (Qred_complete _ _ R).
Qed.

(** *** Rounded values lie on the binary64 grid *)

Definition grid (x : num) : Prop :=
  exists z, val x == inject_Z z * two (-1074).

Lemma grid_zero x : val x = 0 -> grid x.
Proof. intros E. exists 0%Z. rewrite E. reflexivity. Qed.

Lemma round_grid s q : grid (round s q).
Proof.
  unfold round. destruct (Qcompare q 0).
  - apply grid_zero. now destruct s.
  - destruct (Qle_bool huge (rmag (- q))); [now apply grid_zero |].
    destruct (Qeq_bool (rmag (- q)) 0); [now apply grid_zero |].
    destruct (rmag_grid (- q)) as [z Hz]. exists (- z)%Z.
    cbn [val]. rewrite Qred_correct, Hz, inject_Z_opp. ring.
  - destruct (Qle_bool huge (rmag q)); [now apply grid_zero |].
    destruct (rmag_grid q) as [z Hz]. exists z.
    cbn [val]. now rewrite Qred_correct.
Qed.

Lemma mul_grid x y : grid (mul x y).
Proof.
  destruct x as [| sx | | a], y as [| sy | | b]; simpl;
    try (now apply grid_zero); try apply round_grid;
    match goal with |- grid (if ?c then _ else _) => destruct c end;
    now apply grid_zero.
Qed.

Lemma least_positive : ltb (Fin 0) (round false (two (-1074))) = true.
Proof. vm_compute. reflexivity. Qed.

Lemma round_zero s : leb (round s 0) (Fin 0) = true /\ leb (Fin 0) (round s 0) = true.
Proof. destruct s; split; reflexivity. Qed.

(** A grid value is rounded to a positive number exactly when it is positive:
    no difference of two binary64 values underflows to zero. *)
Lemma round_positive s d :
  (exists z, d == inject_Z z * two (-1074)) ->
  ltb (Fin 0) (round s d) = negb (Qle_bool d 0).
Proof.
  intros [z Hz]. destruct (Qle_bool d 0) eqn:B; qbool; cbn [negb].
  - apply leb_ltb_false. apply leb_trans with (round s 0).
    + now apply round_mono.
    + apply round_zero.
  - apply ltb_leb_trans with (round false (two (-1074))).
    + apply least_positive.
    + apply round_mono. pose proof (two_pos (-1074)) as P.
      assert (Z1 : (1 <= z)%Z).
      { destruct (Z_le_gt_dec 1 z) as [| G]; [assumption | exfalso].
        assert (G' : (z <= 0)%Z) by lia. rewrite Zle_Qle in G'.
        change (inject_Z 0) with 0 in G'. nra. }
      rewrite Zle_Qle in Z1. change (inject_Z 1) with 1 in Z1. nra.
Qed.

Lemma val_neg x : val (neg x) == - val x.
Proof.
  destruct x as [| s | | a]; simpl; try reflexivity.
  destruct (Qeq_bool a 0) eqn:E; simpl; qbool; lra.
Qed.

Lemma neg_finite x : isFinite (neg x) = isFinite x.
Proof. destruct x as [| s | | a]; simpl; try reflexivity. now destruct (Qeq_bool a 0). Qed.

Lemma add_finite x y :
  isFinite x = true -> isFinite y = true ->
  add x y = round (sign x && sign y) (val x + val y).
Proof. destruct x, y; simpl; intros; congruence. Qed.

(** The sign of a difference of two numbers on the grid tells their order. *)
Lemma sub_gtb x y :
  grid x -> grid y -> x <> NaN -> y <> NaN ->
  gtb (sub y x) (Fin 0) = ltb x y.
Proof.
  intros Gx Gy Nx Ny. unfold gtb, sub.
  destruct (isFinite x) eqn:Fx, (isFinite y) eqn:Fy.
  - rewrite add_finite by (rewrite ?neg_finite; assumption).
    rewrite round_positive.
    + assert (E : ltb x y = negb (Qle_bool (val y) (val x)))
        by (destruct x, y; simpl in *; congruence).
      rewrite E. f_equal. pose proof (val_neg x) as V.
      destruct (Qle_bool (val y) (val x)) eqn:B; qbool; lra.
    + destruct Gx as [zx Hx], Gy as [zy Hy]. exists (zy - zx)%Z.
      rewrite val_neg, Hx, Hy. unfold Zminus.
      rewrite inject_Z_plus, inject_Z_opp. ring.
  - destruct x as [| sx | | a], y as [| [] | | b]; simpl in *; try congruence;
      destruct (Qeq_bool a 0); simpl; congruence.
  - destruct x as [| [] | | a], y as [| sy | | b]; simpl in *; congruence.
  - destruct x as [| [] | | a], y as [| [] | | b]; simpl in *; congruence.
Qed.

End JsNum.

(** ** Agreement with the Standard Library's binary64

    [SpecFloat] is the Standard Library's executable specification of IEEE 754
    arithmetic.  On every pair of the sample values below, which cover both
    zeros, both infinities, NaN, subnormal numbers, the largest finite number
    and ties of the rounding, the operators of [JsNum] return the value its
    binary64 instance returns. *)

Module Conformance.
Import JsNum.

Definition prec : Z := 53.
Definition emax : Z := 1024.

Definition ofSF (x : spec_float) : num :=
  match x with
  | S754_zero s => zero s
  | S754_infinity s => Inf s
  | S754_nan => NaN
  | S754_finite s m e =>
      Fin (Qred ((if s then - 1 else 1) * inject_Z (Zpos m) * Round.two e))
  end.

(** The same value, with [+0] and [-0] told apart and NaN equal to itself. *)
Definition sameValue (x y : num) : bool :=
  match x, y with
  | NaN, NaN => true
  | Inf a, Inf b => Bool.eqb a b
  | NZero, NZero => true
  | Fin a, Fin b => Qeq_bool a b
  | _, _ => false
  end.

(** The binary64 value [m * 2^e]. *)
Definition sf (m e : Z) : spec_float := binary_normalize prec emax m e false.

Definition samples : list spec_float :=
  [ S754_zero false; S754_zero true; S754_infinity false; S754_infinity true;
    S754_nan; sf 1 0; sf (-3) 0; sf 36 0;
    sf 3602879701896397 (-55); sf (-5404319552844595) (-49);
    sf (2 ^ 53 - 1) (-53) ]%Z.

Definition extremes : list (spec_float * spec_float) :=
  [ (sf 1 (-1074), sf 1 (-1)); (sf 3 (-1074), sf 1 (-1));
    (sf 1 1023, sf 3 0); (sf (2 ^ 53 - 1) 971, sf (2 ^ 53 - 1) 971);
    (sf 36 0, sf 1 (-1074)); (sf 1 (-1074), sf (-1) (-1074));
    (sf (-1) 1023, sf 1 1023); (sf (2 ^ 52 + 1) (-1074), sf 3 0);
    (sf 1 (-537), sf 1 (-538)); (sf (2 ^ 53 - 1) 971, sf 1 918) ]%Z.

Definition agree (f : spec_float -> spec_float -> spec_float)
                 (g : num -> num -> num) : bool :=
  forallb (fun x =>
    forallb (fun y => sameValue (ofSF (f x y)) (g (ofSF x) (ofSF y))) samples)
    samples.

Definition agree_extremes (f : spec_float -> spec_float -> spec_float)
                          (g : num -> num -> num) : bool :=
  forallb (fun xy => sameValue (ofSF (f (fst xy) (snd xy)))
                               (g (ofSF (fst xy)) (ofSF (snd xy))) &&
                     sameValue (ofSF (f (snd xy) (fst xy)))
                               (g (ofSF (snd xy)) (ofSF (fst xy))))
          extremes.

Definition agreeb (f : spec_float -> spec_float -> bool)
                  (g : num -> num -> bool) : bool :=
  forallb (fun x =>
    forallb (fun y => Bool.eqb (f x y) (g (ofSF x) (ofSF y))) samples)
    samples.

Example samples_binary64 : forallb (fun x => binary64 (ofSF x)) samples = true.
Proof. vm_compute. reflexivity. Qed.

Example mul_agrees : agree (SFmul prec emax) mul = true.
Proof. vm_compute. reflexivity. Qed.

Example div_agrees : agree (SFdiv prec emax) div = true.
Proof. vm_compute. reflexivity. Qed.

Example add_agrees : agree (SFadd prec emax) add = true.
Proof. vm_compute. reflexivity. Qed.

Example sub_agrees : agree (SFsub prec emax) sub = true.
Proof. vm_compute. reflexivity. Qed.

Example ltb_agrees : agreeb SFltb ltb = true.
Proof. vm_compute. reflexivity. Qed.

Example leb_agrees : agreeb SFleb leb = true.
Proof. vm_compute. reflexivity. Qed.

Example eqb_agrees : agreeb SFeqb eqb = true.
Proof. vm_compute. reflexivity. Qed.

Example mul_agrees_extremes : agree_extremes (SFmul prec emax) mul = true.
Proof. vm_compute. reflexivity. Qed.

Example div_agrees_extremes : agree_extremes (SFdiv prec emax) div = true.
Proof. vm_compute. reflexivity. Qed.

Example add_agrees_extremes : agree_extremes (SFadd prec emax) add = true.
Proof. vm_compute. reflexivity. Qed.

Example sub_agrees_extremes : agree_extremes (SFsub prec emax) sub = true.
Proof. vm_compute. reflexivity. Qed.

End Conformance.

(** ** JavaScript arrays *)

Module JsArray.
Import JsNum.

Section Sort.
Context {A : Type}.

(** The comparator passed to [Array.prototype.sort]. *)
Variable cmp : A -> A -> num.

(** [sort] calls the comparator and reads its result through SortCompare:
    [x] goes after [y] when [cmp x y > 0]; a NaN result counts as [+0]. *)
Definition after (x y : A) : bool := gtb (cmp x y) (Fin 0).

Fixpoint insert (x : A) (l : list A) : list A :=
  match l with
  | [] => [x]
  | y :: l' => if after x y then y :: insert x l' else x :: y :: l'
  end.

(** [Array.prototype.sort] is a stable sort: elements the comparator does
    not order keep their relative order.  For a comparator that is
    consistent on the array, every conforming sort returns the list
    computed here. *)
Definition sort (l : list A) : list A := fold_right insert [] l.

Lemma insert_perm x l : Permutation (x :: l) (insert x l).
Proof.
  induction l as [| y l IH]; simpl; [reflexivity |].
  destruct (after x y); [| reflexivity].
  rewrite perm_swap. now apply perm_skip.
Qed.

Lemma sort_perm l : Permutation l (sort l).
Proof.
  induction l as [| x l IH]; simpl; [constructor |].
  rewrite <- insert_perm. now apply perm_skip.
Qed.

Lemma sort_In x l : In x (sort l) <-> In x l.
Proof.
  split; apply Permutation_in; [symmetry |]; apply sort_perm.
Qed.

Lemma sort_length l : List.length (sort l) = List.length l.
Proof. symmetry. apply Permutation_length, sort_perm. Qed.

(** [R x y] reads: [x] may stand before [y]. *)
Variable R : A -> A -> Prop.

Lemma insert_Sorted x l :
  (forall y, In y l -> after x y = false -> R x y) ->
  (forall y, In y l -> after x y = true -> R y x) ->
  Sorted R l -> Sorted R (insert x l).
Proof.
  intros Hb Ha. induction 1 as [| y l S IH Hd]; simpl.
  - repeat constructor.
  - destruct (after x y) eqn:E.
    + constructor.
      * apply IH; intros; [apply Hb | apply Ha]; simpl; auto.
      * destruct l as [| z l]; simpl.
        -- constructor. apply Ha; simpl; auto.
        -- destruct (after x z); constructor.
           ++ now inversion Hd.
           ++ apply Ha; simpl; auto.
    + constructor; [now constructor |].
      constructor. apply Hb; simpl; auto.
Qed.

Lemma sort_Sorted l :
  (forall x y, In x l -> In y l -> after x y = false -> R x y) ->
  (forall x y, In x l -> In y l -> after x y = true -> R y x) ->
  Sorted R (sort l).
Proof.
  induction l as [| x l IH]; intros Hb Ha; simpl; [constructor |].
  apply insert_Sorted.
  - intros y Hy E. apply (proj1 (sort_In y l)) in Hy. apply Hb; simpl; auto.
  - intros y Hy E. apply (proj1 (sort_In y l)) in Hy. apply Ha; simpl; auto.
  - apply IH; intros; [apply Hb | apply Ha]; simpl; auto.
Qed.
End Sort.

(** [Array.from(new Set(l))]: the values of [l] in order of first
    occurrence, compared by SameValueZero; [Set] stores [-0] as [+0]. *)
Definition plusZero (x : num) : num :=
  match x with
  | NZero => Fin 0
  | _ => x
  end.

Definition setAdd (acc : list num) (x : num) : list num :=
  if existsb (sameValueZero x) acc then acc else acc ++ [plusZero x].

Definition fromSet (l : list num) : list num := fold_left setAdd l [].

Lemma fromSet_Forall (P : num -> Prop) l :
  (forall x, P x -> P (plusZero x)) -> Forall P l -> Forall P (fromSet l).
Proof.
  intros P0 H. unfold fromSet.
  assert (G : forall acc, Forall P acc -> Forall P (fold_left setAdd l acc)).
  { induction H as [| x l Px H IH]; intros acc Hacc; simpl; [assumption |].
    apply IH. unfold setAdd. destruct (existsb _ acc); [assumption |].
    apply Forall_app. split; [assumption |].
    constructor; [now apply P0 | constructor]. }
  apply G. constructor.
Qed.

Lemma sort_Forall {A} (cmp : A -> A -> num) (P : A -> Prop) l :
  Forall P l -> Forall P (sort cmp l).
Proof. apply Permutation_Forall, sort_perm. Qed.

End JsArray.

(** ** The calculation helpers of the source *)

Module Calc.
Import JsNum JsArray.

Local Open Scope string_scope.

(** The [opts] object of [calcBaseAssemblyPsf]. *)
Record AssemblyOpts : Type := {
  includeOSB : bool;
  osbPsf : num;
  drywallLayers : num;
  drywallPsf : num;
  insulPsf : num
}.

Definition calcBaseAssemblyPsf (opts : AssemblyOpts) : num :=
  let osb := if includeOSB opts then osbPsf opts else Fin 0 in
  let gyp := mul (drywallLayers opts) (drywallPsf opts) in
  add (add osb gyp) (insulPsf opts).

Definition calcCloudAvgPsf (mountMode : string) (areaFt2 totalCloudWeightLb : num) : num :=
  if String.eqb mountMode "distributed" && gtb areaFt2 (Fin 0)
  then div totalCloudWeightLb areaFt2
  else Fin 0.

(** The [params] object of [calcCombos]. *)
Record Params : Type := {
  gridPsf : num;
  allowedChannelSpacings : list num;
  allowedClipSpacings : list num;
  constrainToStructure : bool;
  structureSpacing : num;
  clipCap : num
}.

(** An element of the array [calcCombos] returns. *)
Record Combo : Type := {
  channelOC : num;
  clipOC : num;
  tribAreaFt2 : num;
  loadPerClip : num;
  pass : bool;
  safety : num
}.

(** [(a, b) => a - b] *)
Definition ascending (a b : num) : num := sub a b.

(** [(a, b) => (b.channelOC * b.clipOC) - (a.channelOC * a.clipOC)] *)
Definition widestFirst (a b : Combo) : num :=
  sub (mul (channelOC b) (clipOC b)) (mul (channelOC a) (clipOC a)).

Definition channels (p : Params) : list num :=
  sort ascending (fromSet (allowedChannelSpacings p)).

Definition clips (p : Params) : list num :=
  if constrainToStructure p then [structureSpacing p]
  else sort ascending (fromSet (allowedClipSpacings p)).

(** The body of the inner loop: the object pushed for [ch] and [cl]. *)
Definition combo (gridPsf clipCap ch cl : num) : Combo :=
  let tribAreaFt2 := div (mul ch cl) (Fin 144) in
  let loadPerClip := mul tribAreaFt2 gridPsf in
  let pass := isFinite loadPerClip && leb loadPerClip clipCap in
  let safety :=
    if isFinite loadPerClip && gtb loadPerClip (Fin 0)
    then div clipCap loadPerClip else Inf false in
  {| channelOC := ch; clipOC := cl; tribAreaFt2 := tribAreaFt2;
     loadPerClip := loadPerClip; pass := pass; safety := safety |}.

(** The array [out] when the two loops are done, before it is sorted in
    place. *)
Definition out (p : Params) : list Combo :=
  flat_map (fun ch => map (combo (gridPsf p) (clipCap p) ch) (clips p)) (channels p).

Definition calcCombos (p : Params) : list Combo :=
  sort widestFirst (out p).

Definition firstPassing (combos : list Combo) : option Combo :=
  find pass combos.

End Calc.

(** ** The derived values of the [App] component *)

(** Each [useMemo] of the component is a function of its dependency list. *)
Module App.
Import JsNum JsArray.

Local Open Scope string_scope.

Definition CLIP_CAP : num := Fin 36.

(** [1e-6], the nearest binary64 value to one millionth. *)
Definition tiny : num := Eval vm_compute in lit (1 # 1000000).

Definition totalCloudWeight (c4x1 c4x2 c4x3 c4x4 : num) : num :=
  add (add (add (mul c4x1 (Fin 15)) (mul c4x2 (Fin 30))) (mul c4x3 (Fin 45)))
      (mul c4x4 (Fin 60)).

Definition gridPsf (baseAssemblyPsf cloudAvgPsf miscPsf : num) : num :=
  add (add baseAssemblyPsf cloudAvgPsf) miscPsf.

Definition maxAreaPerClip (gridPsf : num) : num :=
  if gtb gridPsf (Fin 0) then div CLIP_CAP gridPsf else Inf false.

Definition maxSpacingProduct (maxAreaPerClip : num) : num :=
  mul maxAreaPerClip (Fin 144).

Definition estimatedClipsOnGrid (rec : option Calc.Combo) (area : num) : num :=
  match rec with
  | None => Fin 0
  | Some r =>
      if leb area (Fin 0) then Fin 0
      else let tribFt2 := Calc.tribAreaFt2 r in
           Math_ceil (div area (Math_max tribFt2 tiny))
  end.

Definition dedicatedCloudClips (mountMode : string) (c4x1 c4x2 c4x3 c4x4 : num) : num :=
  if negb (String.eqb mountMode "dedicated") then Fin 0
  else let totalClouds := add (add (add c4x1 c4x2) c4x3) c4x4 in
       mul totalClouds (Fin 4).

Definition totalClips (estimatedClipsOnGrid dedicatedCloudClips : num) : num :=
  add estimatedClipsOnGrid dedicatedCloudClips.

(** A row of the dedicated cloud clip check. *)
Record Row : Type := {
  name : string;
  load : num;
  pass : bool;
  safety : num
}.

Definition items : list (string * num) :=
  [ ("4x1 (15 lb)", div (Fin 15) (Fin 4));
    ("4x2 (30 lb)", div (Fin 30) (Fin 4));
    ("4x3 (45 lb)", div (Fin 45) (Fin 4));
    ("4x4 (60 lb)", div (Fin 60) (Fin 4)) ].

Definition dedicatedRows (mountMode : string) : list Row :=
  if negb (String.eqb mountMode "dedicated") then []
  else map (fun x => {| name := fst x; load := snd x;
                        pass := leb (snd x) CLIP_CAP;
                        safety := if gtb (snd x) (Fin 0)
                                  then div CLIP_CAP (snd x) else Inf false |})
           items.

End App.



(** The state of the component (its [useState] cells) and the derived
    values wired as in the component body. *)
Module Component.
Import JsNum App.

Local Open Scope string_scope.

Record State : Type := {
  area : num;
  includeOSB : bool;
  osbPsf : num;
  drywallLayers : num;
  drywallPsf : num;
  insulPsf : num;
  miscPsf : num;
  mountMode : string;
  c4x1 : num;
  c4x2 : num;
  c4x3 : num;
  c4x4 : num;
  allowedChannelSpacings : list num;
  allowedClipSpacings : list num;
  constrainToStructure : bool;
  structureSpacing : num
}.

Section Render.
Variable st : State.

Definition baseAssemblyPsf : num :=
  Calc.calcBaseAssemblyPsf
    {| Calc.includeOSB := includeOSB st; Calc.osbPsf := osbPsf st;
       Calc.drywallLayers := drywallLayers st;
       Calc.drywallPsf := drywallPsf st; Calc.insulPsf := insulPsf st |}.

Definition cloudAvgPsf : num :=
  Calc.calcCloudAvgPsf (mountMode st) (area st)
    (totalCloudWeight (c4x1 st) (c4x2 st) (c4x3 st) (c4x4 st)).

Definition gridPsf : num := App.gridPsf baseAssemblyPsf cloudAvgPsf (miscPsf st).

Definition combos : list Calc.Combo :=
  Calc.calcCombos
    {| Calc.gridPsf := gridPsf;
       Calc.allowedChannelSpacings := allowedChannelSpacings st;
       Calc.allowedClipSpacings := allowedClipSpacings st;
       Calc.constrainToStructure := constrainToStructure st;
       Calc.structureSpacing := structureSpacing st;
       Calc.clipCap := CLIP_CAP |}.

Definition rec : option Calc.Combo := Calc.firstPassing combos.

Definition estimatedClipsOnGrid : num := App.estimatedClipsOnGrid rec (area st).

Definition dedicatedCloudClips : num :=
  App.dedicatedCloudClips (mountMode st) (c4x1 st) (c4x2 st) (c4x3 st) (c4x4 st).

Definition totalClips : num := App.totalClips estimatedClipsOnGrid dedicatedCloudClips.

Definition dedicatedRows : list Row := App.dedicatedRows (mountMode st).
End Render.

End Component.


(** ** The built-in tests of the source

    [TestPanel] runs the helpers on five configurations and displays whether
    each expectation holds.  The embedding gives the results the source
    expects. *)

Module TestPanel.
Import JsNum Calc.

Local Open Scope string_scope.

(** A test configuration; a field the source leaves out is [None]. *)
Record Cfg : Type := {
  assembly : AssemblyOpts;
  mountMode : string;
  area : num;
  totalCloudWeight : option num;
  miscPsf : option num;
  channelSpacings : list num;
  clipSpacings : list num;
  constrain : option bool;
  structure : option num
}.

(** [x || d] for a number [x] that may be missing: [0] and NaN are falsy. *)
Definition orNum (x : option num) (d : num) : num :=
  match x with
  | Some v => if isZero v then d else match v with NaN => d | _ => v end
  | None => d
  end.

Definition orBool (x : option bool) (d : bool) : bool :=
  match x with
  | Some true => true
  | _ => d
  end.

Record Result : Type := {
  base : num;
  cloud : num;
  grid : num;
  combos : list Combo;
  rec : option Combo
}.

Definition run (cfg : Cfg) : Result :=
  let base := calcBaseAssemblyPsf (assembly cfg) in
  let cloud := calcCloudAvgPsf (mountMode cfg) (area cfg)
                 (orNum (totalCloudWeight cfg) (Fin 0)) in
  let grid := add (add base cloud) (orNum (miscPsf cfg) (Fin 0)) in
  let combos := calcCombos
    {| gridPsf := grid;
       allowedChannelSpacings := channelSpacings cfg;
       allowedClipSpacings := clipSpacings cfg;
       constrainToStructure := orBool (constrain cfg) false;
       structureSpacing := orNum (structure cfg) (Fin 48);
       clipCap := Fin 36 |} in
  {| base := base; cloud := cloud; grid := grid; combos := combos;
     rec := firstPassing combos |}.

(** OSB at 2.7 psf, two layers of drywall at 2.5 psf, insulation at 0.2 psf. *)
Definition osbTwoGyp : AssemblyOpts :=
  {| includeOSB := true; osbPsf := lit (27 # 10); drywallLayers := Fin 2;
     drywallPsf := lit (5 # 2); insulPsf := lit (1 # 5) |}.

Definition cfgOf (weight misc : option num) (chs cls : list num) : Cfg :=
  {| assembly := osbTwoGyp; mountMode := "distributed"; area := Fin 400;
     totalCloudWeight := weight; miscPsf := misc;
     channelSpacings := chs; clipSpacings := cls;
     constrain := None; structure := None |}.

Definition wideMenu : list num * list num :=
  ([Fin 12; Fin 16; Fin 24], [Fin 24; Fin 32; Fin 36; Fin 48]).

Definition recIs (ch cl : num) (r : Result) : bool :=
  match rec r with
  | Some c => eqb (channelOC c) ch && eqb (clipOC c) cl
  | None => false
  end.

(** The five test cases: a configuration and its expectation. *)
Definition tests : list (Cfg * (Result -> bool)) :=
  [ (cfgOf (Some (Fin 0)) None [Fin 16; Fin 24] [Fin 48],
     fun r => match rec r with None => true | Some _ => false end);
    (cfgOf (Some (Fin 0)) None [Fin 16] [Fin 24], recIs (Fin 16) (Fin 24));
    (cfgOf (Some (Fin 240)) None (fst wideMenu) (snd wideMenu),
     fun r => match rec r with
              | Some c => geb (mul (channelOC c) (clipOC c))
                              (mul (Fin 24) (Fin 24))
              | None => false
              end);
    (cfgOf (Some (Fin 240)) (Some (Fin 1)) (fst wideMenu) (snd wideMenu),
     recIs (Fin 16) (Fin 32));
    (cfgOf (Some (Fin 0)) None (fst wideMenu) (snd wideMenu),
     fun r => existsb (fun c => eqb (clipOC c) (Fin 36)) (combos r)) ].

Definition results : list bool := map (fun t => snd t (run (fst t))) tests.

(** X19. Each of the five built-in tests is displayed as PASS: evaluated in
    binary64, every expectation holds of the result of [run] on its
    configuration. *)
Example tests_pass : results = [true; true; true; true; true].
Proof. vm_compute. reflexivity. Qed.

End TestPanel.

(** ** Properties of the enumeration *)

Module CombosFacts.
Import JsNum JsArray Calc.

(** The spacing product the comparator of [calcCombos] sorts by. *)
Definition spacingProduct (c : Combo) : num := mul (channelOC c) (clipOC c).

(** The spacing candidates the enumeration uses are positive numbers. *)
Definition positive (x : num) : Prop := gtb x (Fin 0) = true.

Definition positiveSpacings (p : Params) : Prop :=
  Forall positive (allowedChannelSpacings p) /\
  (if constrainToStructure p then positive (structureSpacing p)
   else Forall positive (allowedClipSpacings p)).

Lemma positive_cases x :
  positive x -> x = Inf false \/ exists q, x = Fin q /\ 0 < q.
Proof.
  unfold positive, gtb.
  destruct x as [| [] | | q]; simpl; intros H; try discriminate; auto.
  right. exists q. split; [reflexivity |]. qbool. assumption.
Qed.

Lemma positive_plusZero x : positive x -> positive (plusZero x).
Proof. now destruct x. Qed.

Lemma channels_positive p : positiveSpacings p -> Forall positive (channels p).
Proof.
  intros [H _]. apply sort_Forall, fromSet_Forall; [apply positive_plusZero | exact H].
Qed.

Lemma clips_positive p : positiveSpacings p -> Forall positive (clips p).
Proof.
  intros [_ H]. unfold clips. destruct (constrainToStructure p).
  - now constructor.
  - apply sort_Forall, fromSet_Forall; [apply positive_plusZero | exact H].
Qed.

(** The product of two positive numbers is never NaN and never negative. *)
Lemma mul_positive x y :
  positive x -> positive y -> leb (Fin 0) (mul x y) = true.
Proof.
  intros Hx Hy.
  destruct (positive_cases x Hx) as [-> | [a [-> Ha]]],
           (positive_cases y Hy) as [-> | [b [-> Hb]]]; cbn [mul isZero sign].
  - reflexivity.
  - assert (E : Qeq_bool b 0 = false) by (qbool; lra). rewrite E.
    assert (S : Qle_bool 0 b = true) by (qbool; lra). now rewrite S.
  - assert (E : Qeq_bool a 0 = false) by (qbool; lra). rewrite E.
    assert (S : Qle_bool 0 a = true) by (qbool; lra). now rewrite S.
  - apply leb_trans with (round false 0); [reflexivity |].
    apply round_mono. cbn [val]. apply Qmult_le_0_compat; lra.
Qed.

(** What [calcCombos] returns holds exactly the objects the loops pushed. *)
Lemma out_In p c :
  In c (out p) <->
  exists ch cl, In ch (channels p) /\ In cl (clips p) /\
                c = combo (gridPsf p) (clipCap p) ch cl.
Proof.
  unfold out. rewrite in_flat_map. split.
  - intros [ch [Hch Hc]]. apply in_map_iff in Hc as [cl [E Hcl]].
    exists ch, cl. auto.
  - intros [ch [cl [Hch [Hcl E]]]]. exists ch. split; [assumption |].
    apply in_map_iff. exists cl. auto.
Qed.

Lemma calcCombos_In p c :
  In c (calcCombos p) <->
  exists ch cl, In ch (channels p) /\ In cl (clips p) /\
                c = combo (gridPsf p) (clipCap p) ch cl.
Proof. unfold calcCombos. rewrite sort_In. apply out_In. Qed.

Lemma out_length p :
  List.length (out p) = (List.length (channels p) * List.length (clips p))%nat.
Proof.
  unfold out. induction (channels p) as [| ch l IH]; simpl; [reflexivity |].
  now rewrite length_app, length_map, IH.
Qed.

Lemma calcCombos_length p :
  List.length (calcCombos p) = (List.length (channels p) * List.length (clips p))%nat.
Proof. unfold calcCombos. rewrite sort_length. apply out_length. Qed.

Lemma out_product p c :
  positiveSpacings p -> In c (out p) -> leb (Fin 0) (spacingProduct c) = true.
Proof.
  intros Hp Hc. apply out_In in Hc as [ch [cl [Hch [Hcl ->]]]].
  unfold spacingProduct. simpl.
  pose proof (channels_positive p Hp) as Pc. pose proof (clips_positive p Hp) as Pl.
  rewrite Forall_forall in Pc, Pl. apply mul_positive; auto.
Qed.

(** On the pushed objects the comparator puts [a] after [b] exactly when the
    product of [a] is the smaller one. *)
Lemma after_widestFirst p a b :
  positiveSpacings p -> In a (out p) -> In b (out p) ->
  after widestFirst a b = ltb (spacingProduct a) (spacingProduct b).
Proof.
  intros Hp Ha Hb. unfold after, widestFirst.
  apply sub_gtb; try apply mul_grid.
  - eapply leb_notNaN_r, out_product; eassumption.
  - eapply leb_notNaN_r, out_product; eassumption.
Qed.

(** [widest a b]: [a] is at least as wide as [b]. *)
Definition widest (a b : Combo) : Prop :=
  geb (spacingProduct a) (spacingProduct b) = true.

Lemma widest_trans a b c : widest a b -> widest b c -> widest a c.
Proof. unfold widest, geb. intros H1 H2. eapply leb_trans; eassumption. Qed.

Lemma calcCombos_Sorted p : positiveSpacings p -> Sorted widest (calcCombos p).
Proof.
  intros Hp. unfold calcCombos. apply sort_Sorted; intros a b Ha Hb E.
  - rewrite (after_widestFirst p) in E by assumption.
    unfold widest, geb. apply ltb_false_leb; [| | assumption];
      eapply leb_notNaN_r, out_product; eassumption.
  - rewrite (after_widestFirst p) in E by assumption.
    unfold widest, geb. now apply ltb_leb.
Qed.

Lemma calcCombos_StronglySorted p :
  positiveSpacings p -> StronglySorted widest (calcCombos p).
Proof.
  intros Hp. apply Sorted_StronglySorted; [| now apply calcCombos_Sorted].
  intros a b c. apply widest_trans.
Qed.

Lemma Sorted_adjacent {A} (R : A -> A -> Prop) l1 a b l2 :
  Sorted R (l1 ++ a :: b :: l2) -> R a b.
Proof.
  induction l1 as [| x l1 IH]; simpl; intros H.
  - inversion H as [| ? ? _ Hd]. now inversion Hd.
  - inversion H. auto.
Qed.

End CombosFacts.

(** ** The properties of the specification *)

Import JsNum JsArray Calc CombosFacts.

Local Open Scope string_scope.

(** Evaluation of the calculator on concrete inputs. *)
Ltac run := vm_compute; reflexivity.
Ltac run_In := vm_compute; repeat (try (left; reflexivity); right).
Ltac conjs := repeat match goal with |- _ /\ _ => split end.

Lemma ltb_irrefl x : ltb x x = false.
Proof. destruct x as [| [] | | a]; simpl; try reflexivity; qbool; lra. Qed.

Lemma find_none_iff {A} (f : A -> bool) l :
  find f l = None <-> forall x, In x l -> f x = false.
Proof.
  split; [apply find_none |].
  induction l as [| x l IH]; simpl; intros H; [reflexivity |].
  rewrite (H x) by auto. apply IH. auto.
Qed.

(** The first passing element of a list sorted widest first is a widest
    passing element. *)
Lemma firstPassing_StronglySorted l c :
  StronglySorted widest l -> firstPassing l = Some c ->
  In c l /\ pass c = true /\
  forall c', In c' l -> pass c' = true ->
             gtb (spacingProduct c') (spacingProduct c) = false.
Proof.
  unfold firstPassing.
  induction 1 as [| x l S IH F]; simpl; [discriminate |].
  destruct (pass x) eqn:Px.
  - intros [= <-]. repeat split; auto.
    intros c' [<- | Hc'] _; [apply ltb_irrefl |].
    rewrite Forall_forall in F. apply leb_ltb_false. now apply F.
  - intros E. destruct (IH E) as [Hin [Hp Hmax]]. repeat split; auto.
    intros c' [<- | Hc'] Pc'; [congruence | auto].
Qed.

(** A setting of the calculator used to instantiate the statements below:
    a grid load of 19/2 psf over the default spacing menu. *)
Definition menu (g : num) : Params :=
  {| gridPsf := g;
     allowedChannelSpacings := [Fin 12; Fin 16; Fin 24];
     allowedClipSpacings := [Fin 24; Fin 32; Fin 36; Fin 48];
     constrainToStructure := false;
     structureSpacing := Fin 48;
     clipCap := App.CLIP_CAP |}.

Lemma menu_positive g : positiveSpacings (menu g).
Proof. split; simpl; repeat constructor. Defined.

(** C1. With positive spacing candidates, the combination [firstPassing]
    returns from the enumerated sequence passes and no passing combination of
    the sequence has a strictly larger spacing product; it returns nothing
    exactly when no combination of the sequence passes. *)
Theorem firstPassing_widest_passing p :
  positiveSpacings p ->
  (forall c, firstPassing (calcCombos p) = Some c ->
     In c (calcCombos p) /\ pass c = true /\
     forall c', In c' (calcCombos p) -> pass c' = true ->
                gtb (spacingProduct c') (spacingProduct c) = false) /\
  (firstPassing (calcCombos p) = None <->
   forall c', In c' (calcCombos p) -> pass c' = false).
Proof.
  intros Hp. split.
  - intros c. apply firstPassing_StronglySorted.
    now apply calcCombos_StronglySorted.
  - apply find_none_iff.
Qed.

Lemma firstPassing_widest_passing_witness :
  positiveSpacings (menu (Fin (19 # 2))) /\
  ((forall c, firstPassing (calcCombos (menu (Fin (19 # 2)))) = Some c ->
     In c (calcCombos (menu (Fin (19 # 2)))) /\ pass c = true /\
     forall c', In c' (calcCombos (menu (Fin (19 # 2)))) -> pass c' = true ->
                gtb (spacingProduct c') (spacingProduct c) = false) /\
   (firstPassing (calcCombos (menu (Fin (19 # 2)))) = None <->
    forall c', In c' (calcCombos (menu (Fin (19 # 2)))) -> pass c' = false)).
Proof.
  split; [apply menu_positive |].
  apply (firstPassing_widest_passing (menu (Fin (19 # 2)))), menu_positive.
Defined.

(** C2. With positive spacing candidates, of two adjacent elements of the
    sequence [calcCombos] returns the earlier has a spacing product greater
    than or equal to that of the later. *)
Theorem calcCombos_descending p l1 a b l2 :
  positiveSpacings p ->
  calcCombos p = (l1 ++ a :: b :: l2)%list ->
  geb (spacingProduct a) (spacingProduct b) = true.
Proof.
  intros Hp E. pose proof (calcCombos_Sorted p Hp) as S.
  rewrite E in S. exact (Sorted_adjacent widest l1 a b l2 S).
Qed.

Lemma calcCombos_descending_witness :
  let l := calcCombos (menu (Fin (19 # 2))) in
  geb (spacingProduct (nth 2 l (combo NaN NaN NaN NaN)))
      (spacingProduct (nth 3 l (combo NaN NaN NaN NaN))) = true.
Proof.
  intros l.
  apply (calcCombos_descending (menu (Fin (19 # 2))) (firstn 2 l) _ _ (skipn 4 l)).
  - apply menu_positive.
  - vm_compute. reflexivity.
Defined.

(** Every element of the enumerated sequence is the object the loop body
    builds from its own two spacings. *)
Lemma calcCombos_fields p c :
  In c (calcCombos p) ->
  tribAreaFt2 c = div (mul (channelOC c) (clipOC c)) (Fin 144) /\
  loadPerClip c = mul (tribAreaFt2 c) (gridPsf p) /\
  pass c = isFinite (loadPerClip c) && leb (loadPerClip c) (clipCap p) /\
  safety c = (if isFinite (loadPerClip c) && gtb (loadPerClip c) (Fin 0)
              then div (clipCap p) (loadPerClip c) else Inf false).
Proof.
  intros H. apply calcCombos_In in H as [ch [cl [_ [_ ->]]]].
  repeat split.
Qed.

(** A grid load of [2^1023] psf, a binary64 value, over the single pair of
    spacings 12 in and 24 in: the load per clip overflows. *)
Definition overflowing : Params :=
  {| gridPsf := Fin (Round.two 1023);
     allowedChannelSpacings := [Fin 12];
     allowedClipSpacings := [Fin 24];
     constrainToStructure := false;
     structureSpacing := Fin 48;
     clipCap := App.CLIP_CAP |}.

(** C3, as stated, fails: for a load per clip of [+Infinity], which is
    greater than zero, the safety factor is [+Infinity] and not
    [capacity / load], which is [0]. *)
Lemma safety_of_infinite_load :
  binary64 (gridPsf overflowing) = true /\
  map loadPerClip (calcCombos overflowing) = [Inf false] /\
  map (fun c => gtb (loadPerClip c) (Fin 0)) (calcCombos overflowing) = [true] /\
  map safety (calcCombos overflowing) = [Inf false] /\
  map (fun c => div (clipCap overflowing) (loadPerClip c)) (calcCombos overflowing)
  = [Fin 0].
Proof. vm_compute. repeat split. Qed.

(** C3, amended. For every combination of the enumerated sequence the safety
    factor is [capacity / load] when the load per clip is finite and greater
    than zero, and [+Infinity] otherwise: so it is [+Infinity] for a load
    that is NaN or infinite. *)
Theorem safety_rule p c :
  In c (calcCombos p) ->
  (isFinite (loadPerClip c) = true -> gtb (loadPerClip c) (Fin 0) = true ->
   safety c = div (clipCap p) (loadPerClip c)) /\
  (isFinite (loadPerClip c) = false \/ gtb (loadPerClip c) (Fin 0) = false ->
   safety c = Inf false).
Proof.
  intros H. destruct (calcCombos_fields p c H) as [_ [_ [_ ->]]].
  split.
  - intros -> ->. reflexivity.
  - intros [-> | ->]; [reflexivity | now rewrite andb_false_r].
Qed.

Lemma safety_rule_witness :
  let c := combo (Fin (19 # 2)) App.CLIP_CAP (Fin 12) (Fin 24) in
  In c (calcCombos (menu (Fin (19 # 2)))) /\
  (isFinite (loadPerClip c) = true -> gtb (loadPerClip c) (Fin 0) = true ->
   safety c = div App.CLIP_CAP (loadPerClip c)) /\
  (isFinite (loadPerClip c) = false \/ gtb (loadPerClip c) (Fin 0) = false ->
   safety c = Inf false).
Proof.
  intros c.
  assert (H : In c (calcCombos (menu (Fin (19 # 2))))) by run_In.
  split; [exact H |].
  exact (safety_rule (menu (Fin (19 # 2))) c H).
Defined.

(** The row of the dedicated check for a cloud class of weight [w]. *)
Definition classRow (label : string) (w : Q) : App.Row :=
  let load := div (Fin w) (Fin 4) in
  {| App.name := label; App.load := load;
     App.pass := leb load App.CLIP_CAP;
     App.safety := div App.CLIP_CAP load |}.

Definition stateIn (mode : string) : Component.State :=
  {| Component.area := Fin 400;
     Component.includeOSB := true;
     Component.osbPsf := lit (27 # 10);
     Component.drywallLayers := Fin 2;
     Component.drywallPsf := lit (5 # 2);
     Component.insulPsf := lit (1 # 5);
     Component.miscPsf := Fin 0;
     Component.mountMode := mode;
     Component.c4x1 := Fin 0;
     Component.c4x2 := Fin 0;
     Component.c4x3 := Fin 0;
     Component.c4x4 := Fin 4;
     Component.allowedChannelSpacings := [Fin 12; Fin 16; Fin 24];
     Component.allowedClipSpacings := [Fin 24; Fin 32; Fin 36; Fin 48];
     Component.constrainToStructure := false;
     Component.structureSpacing := Fin 48 |}.

(** The default state of the component with four 4x4 clouds, distributed. *)
Definition distributedState : Component.State := stateIn "distributed".

(** C4, as stated, fails: in the distributed mount mode the dedicated check
    returns no row at all. *)
Lemma dedicatedRows_distributed_empty :
  Component.dedicatedRows distributedState = [] /\
  List.length (Component.dedicatedRows distributedState) = 0%nat.
Proof. split; reflexivity. Qed.

(** C4, amended. In the dedicated mount mode, whatever the cloud counts and
    the other inputs, the dedicated check returns the same four rows, one per
    weight class 15, 30, 45 and 60, each with a load per clip of a quarter
    of the class weight and a pass flag that is [load <= 36]; in any other
    mount mode it returns the empty sequence. *)
Theorem dedicatedRows_classes (st : Component.State) :
  (Component.mountMode st = "dedicated" ->
   Component.dedicatedRows st =
   [classRow "4x1 (15 lb)" 15; classRow "4x2 (30 lb)" 30;
    classRow "4x3 (45 lb)" 45; classRow "4x4 (60 lb)" 60]) /\
  (Component.mountMode st <> "dedicated" -> Component.dedicatedRows st = []).
Proof.
  unfold Component.dedicatedRows, App.dedicatedRows. split.
  - intros ->. reflexivity.
  - intros N. apply String.eqb_neq in N. now rewrite N.
Qed.

Lemma dedicatedRows_classes_witness :
  Component.dedicatedRows (stateIn "dedicated") =
  [classRow "4x1 (15 lb)" 15; classRow "4x2 (30 lb)" 30;
   classRow "4x3 (45 lb)" 45; classRow "4x4 (60 lb)" 60] /\
  map App.load (Component.dedicatedRows (stateIn "dedicated")) =
  [Fin (15 # 4); Fin (15 # 2); Fin (45 # 4); Fin 15] /\
  map App.pass (Component.dedicatedRows (stateIn "dedicated")) =
  [true; true; true; true].
Proof.
  split; [| split; run].
  exact (proj1 (dedicatedRows_classes (stateIn "dedicated")) eq_refl).
Defined.

(** C5. The cloud contribution is [cloudWeight / area] when the mount mode is
    distributed and the area is greater than zero, a case in which the
    divisor is not zero, and it is exactly [0] otherwise; so it is [0] for an
    area of zero in the distributed mode. *)
Theorem calcCloudAvgPsf_guarded mode area w :
  (mode = "distributed" /\ gtb area (Fin 0) = true ->
   isZero area = false /\ calcCloudAvgPsf mode area w = div w area) /\
  (~ (mode = "distributed" /\ gtb area (Fin 0) = true) ->
   calcCloudAvgPsf mode area w = Fin 0) /\
  calcCloudAvgPsf "distributed" (Fin 0) w = Fin 0 /\
  calcCloudAvgPsf "distributed" NZero w = Fin 0.
Proof.
  unfold calcCloudAvgPsf. repeat split.
  - destruct H as [_ H]. destruct area as [| [] | | a]; try discriminate; try reflexivity.
    unfold gtb in H. simpl in *. qbool. lra.
  - destruct H as [-> ->]. reflexivity.
  - intros N. destruct (String.eqb_spec mode "distributed"); [| reflexivity].
    destruct (gtb area (Fin 0)); [| reflexivity]. exfalso. auto.
Qed.

Lemma calcCloudAvgPsf_guarded_witness :
  calcCloudAvgPsf "distributed" (Fin 400) (Fin 240) = div (Fin 240) (Fin 400) /\
  calcCloudAvgPsf "distributed" (Fin 0) (Fin 240) = Fin 0 /\
  calcCloudAvgPsf "dedicated" (Fin 400) (Fin 240) = Fin 0.
Proof.
  pose proof (calcCloudAvgPsf_guarded "distributed" (Fin 400) (Fin 240)) as D.
  pose proof (calcCloudAvgPsf_guarded "dedicated" (Fin 400) (Fin 240)) as N.
  split; [| split].
  - exact (proj2 (proj1 D (conj eq_refl eq_refl))).
  - exact (proj1 (proj2 (proj2 D))).
  - apply (proj1 (proj2 N)). intros [E _]. discriminate E.
Defined.

(** C6. For a capacity that is not negative, as the fixed capacity of 36 is,
    a combination of the enumerated sequence whose load per clip is finite and
    negative passes: its pass flag is the comparison [load <= capacity]. *)
Theorem negative_load_passes p c :
  leb (Fin 0) (clipCap p) = true ->
  In c (calcCombos p) ->
  isFinite (loadPerClip c) = true ->
  ltb (loadPerClip c) (Fin 0) = true ->
  pass c = leb (loadPerClip c) (clipCap p) /\ pass c = true.
Proof.
  intros Hcap H Hfin Hneg.
  destruct (calcCombos_fields p c H) as [_ [_ [E _]]].
  rewrite Hfin in E. cbn [andb] in E.
  split; [exact E |]. rewrite E.
  apply ltb_leb. eapply ltb_leb_trans; eassumption.
Qed.

Lemma negative_load_passes_witness :
  let p := menu (Fin (- (1 # 2))) in
  let c := combo (Fin (- (1 # 2))) App.CLIP_CAP (Fin 12) (Fin 24) in
  loadPerClip c = Fin (-1) /\
  pass c = leb (loadPerClip c) (clipCap p) /\ pass c = true.
Proof.
  intros p c. split; [reflexivity |].
  apply (negative_load_passes p c).
  - reflexivity.
  - run_In.
  - reflexivity.
  - reflexivity.
Defined.

(** C7. For every pair of the cross product of the two dimension sets whose
    load per clip is not finite, the combination is an element of the
    enumerated sequence, whose length is the product of the sizes of the two
    sets, and its pass flag is false. *)
Theorem nonfinite_load_kept p ch cl :
  In ch (channels p) -> In cl (clips p) ->
  isFinite (loadPerClip (combo (gridPsf p) (clipCap p) ch cl)) = false ->
  In (combo (gridPsf p) (clipCap p) ch cl) (calcCombos p) /\
  pass (combo (gridPsf p) (clipCap p) ch cl) = false /\
  List.length (calcCombos p) = (List.length (channels p) * List.length (clips p))%nat.
Proof.
  intros Hch Hcl Hnf. repeat split.
  - apply calcCombos_In. exists ch, cl. auto.
  - cbn [pass combo]. cbn [loadPerClip combo] in Hnf. now rewrite Hnf.
  - apply calcCombos_length.
Qed.

Lemma nonfinite_load_kept_witness :
  let c := combo (Fin (Round.two 1023)) App.CLIP_CAP (Fin 12) (Fin 24) in
  loadPerClip c = Inf false /\
  In c (calcCombos overflowing) /\ pass c = false /\
  List.length (calcCombos overflowing) = 1%nat.
Proof.
  intros c. split; [reflexivity |].
  apply (nonfinite_load_kept overflowing (Fin 12) (Fin 24)).
  - left. reflexivity.
  - left. reflexivity.
  - reflexivity.
Defined.

Lemma mul_comm x y : mul x y = mul y x.
Proof.
  destruct x as [| sx | | a], y as [| sy | | b]; cbn [mul isZero sign val];
    try reflexivity;
    try (rewrite (xorb_comm sx); reflexivity);
    try (rewrite xorb_comm; apply round_comp; ring);
    now rewrite xorb_comm.
Qed.

(** C9. The total clip count is the sum of the grid count and the dedicated
    count; the dedicated count is [0] unless the mount mode is dedicated,
    where it is four times the sum of the four cloud counts; the grid count
    is [0] when there is no recommendation or the area is not above zero. *)
Theorem fastener_counts rec area mode c1 c2 c3 c4 :
  App.totalClips (App.estimatedClipsOnGrid rec area)
                 (App.dedicatedCloudClips mode c1 c2 c3 c4)
  = add (App.estimatedClipsOnGrid rec area)
        (App.dedicatedCloudClips mode c1 c2 c3 c4) /\
  (mode <> "dedicated" -> App.dedicatedCloudClips mode c1 c2 c3 c4 = Fin 0) /\
  (mode = "dedicated" ->
   App.dedicatedCloudClips mode c1 c2 c3 c4
   = mul (Fin 4) (add (add (add c1 c2) c3) c4)) /\
  (rec = None \/ leb area (Fin 0) = true ->
   App.estimatedClipsOnGrid rec area = Fin 0).
Proof.
  unfold App.totalClips, App.dedicatedCloudClips, App.estimatedClipsOnGrid.
  repeat split.
  - intros N. apply String.eqb_neq in N. now rewrite N.
  - intros ->. cbn [String.eqb Ascii.eqb Bool.eqb negb]. apply mul_comm.
  - intros [-> | H]; [reflexivity |]. rewrite H. now destruct rec.
Qed.

Lemma fastener_counts_witness :
  let rec := Some (combo (Fin (19 # 2)) App.CLIP_CAP (Fin 16) (Fin 32)) in
  App.estimatedClipsOnGrid rec (Fin 400) = Fin 113 /\
  App.dedicatedCloudClips "dedicated" (Fin 1) (Fin 0) (Fin 2) (Fin 4) = Fin 28 /\
  App.totalClips (App.estimatedClipsOnGrid rec (Fin 400))
                 (App.dedicatedCloudClips "dedicated" (Fin 1) (Fin 0) (Fin 2) (Fin 4))
  = add (App.estimatedClipsOnGrid rec (Fin 400))
        (App.dedicatedCloudClips "dedicated" (Fin 1) (Fin 0) (Fin 2) (Fin 4)).
Proof.
  intros rec. split; [reflexivity |]. split; [reflexivity |].
  exact (proj1 (fastener_counts rec (Fin 400) "dedicated" (Fin 1) (Fin 0) (Fin 2) (Fin 4))).
Defined.

(** *** Monotonicity in the grid load *)

Lemma mul_finite x y :
  isFinite x = true -> isFinite y = true ->
  mul x y = round (xorb (sign x) (sign y)) (val x * val y).
Proof. destruct x, y; simpl; intros; congruence. Qed.

Lemma div_finite x y :
  isFinite x = true -> isFinite y = true -> isZero y = false ->
  div x y = round (xorb (sign x) (sign y)) (val x / val y).
Proof.
  destruct x, y; cbn [isFinite]; intros Hx Hy Hz; try discriminate;
    cbn [div]; rewrite Hz; reflexivity.
Qed.

Lemma leb_finite x y :
  isFinite x = true -> isFinite y = true -> leb x y = Qle_bool (val x) (val y).
Proof. destruct x, y; simpl; intros; congruence. Qed.

Lemma ltb_finite x y :
  isFinite x = true -> isFinite y = true ->
  ltb x y = negb (Qle_bool (val y) (val x)).
Proof. destruct x, y; simpl; intros; congruence. Qed.

Lemma leb_Inf x : x <> NaN -> leb x (Inf false) = true.
Proof. destruct x as [| [] | |]; simpl; congruence. Qed.

Lemma ltb_leb_false x y : ltb x y = true -> leb y x = false.
Proof.
  destruct x as [| [] | | a], y as [| [] | | b];
    simpl; intros H; try discriminate; try reflexivity; qbool; lra.
Qed.

(** A rational that is not negative is rounded to [+Infinity] or to a finite
    number that is not negative. *)
Lemma round_nonneg s q :
  0 <= q ->
  round s q = Inf false \/ (isFinite (round s q) = true /\ 0 <= val (round s q)).
Proof.
  intros H. pose proof (round_approx s q) as A.
  assert (R : 0 <= rval q) by (apply (rval_mono 0 q H)).
  pose proof huge_pos as P.
  destruct (round s q) as [| [] | | w]; cbn [approx] in A; cbn [isFinite val].
  - contradiction.
  - lra.
  - auto.
  - right. split; [reflexivity | lra].
  - right. split; [reflexivity | lra].
Qed.

(** The tributary area of two positive spacings. *)
Lemma tribArea_cases ch cl :
  positive ch -> positive cl ->
  let t := div (mul ch cl) (Fin 144) in
  t = Inf false \/ (isFinite t = true /\ 0 <= val t).
Proof.
  intros Hch Hcl. cbv zeta. pose proof (mul_positive ch cl Hch Hcl) as M.
  destruct (mul ch cl) as [| [] | | v]; simpl in M; try discriminate.
  - left. reflexivity.
  - right. split; [reflexivity | apply Qle_refl].
  - qbool. rewrite div_finite by reflexivity. apply round_nonneg.
    cbn [val]. apply Qle_shift_div_l; lra.
Qed.

(** The safety factor as a function of the load per clip. *)
Definition safetyOf (cap load : num) : num :=
  if isFinite load && gtb load (Fin 0) then div cap load else Inf false.

Lemma finite_positive l :
  isFinite l = true -> gtb l (Fin 0) = true -> exists a, l = Fin a /\ 0 < a.
Proof.
  unfold gtb. destruct l as [| | | a]; simpl; intros F G; try discriminate.
  exists a. split; [reflexivity |]. qbool. assumption.
Qed.

(** Dividing a capacity that is not negative by a positive finite load. *)
Lemma div_positive cap a :
  leb (Fin 0) cap = true -> 0 < a ->
  (cap = Inf false /\ div cap (Fin a) = Inf false) \/
  (isFinite cap = true /\ 0 <= val cap /\
   exists s, div cap (Fin a) = round s (val cap / a)).
Proof.
  intros Hc Ha.
  assert (Z : Qeq_bool a 0 = false) by (qbool; lra).
  assert (S : Qle_bool 0 a = true) by (qbool; lra).
  destruct cap as [| [] | | c]; simpl in Hc; try discriminate.
  - left. split; [reflexivity |]. simpl. now rewrite S.
  - right. repeat split; [apply Qle_refl |].
    eexists. rewrite div_finite by (reflexivity || exact Z). reflexivity.
  - right. apply Qle_bool_iff in Hc. repeat split; [assumption |].
    eexists. rewrite div_finite by (reflexivity || exact Z). reflexivity.
Qed.

Lemma safetyOf_notNaN cap load :
  leb (Fin 0) cap = true -> safetyOf cap load <> NaN.
Proof.
  intros Hc. unfold safetyOf.
  destruct (isFinite load && gtb load (Fin 0)) eqn:E; [| discriminate].
  apply andb_true_iff in E as [F G].
  destruct (finite_positive load F G) as [a [-> Ha]].
  destruct (div_positive cap a Hc Ha) as [[_ ->] | [_ [_ [s ->]]]];
    [discriminate | apply round_notNaN].
Qed.

(** For a capacity that is not negative, a larger finite load has a safety
    factor that is not larger. *)
Lemma safetyOf_antitone cap l1 l2 :
  leb (Fin 0) cap = true -> leb l1 l2 = true -> isFinite l2 = true ->
  leb (safetyOf cap l2) (safetyOf cap l1) = true.
Proof.
  intros Hc H F2.
  destruct (isFinite l1 && gtb l1 (Fin 0)) eqn:E1.
  - apply andb_true_iff in E1 as [F1 G1].
    assert (G2 : gtb l2 (Fin 0) = true) by (eapply ltb_leb_trans; eassumption).
    unfold safetyOf. rewrite F1, G1, F2, G2. cbn [andb].
    destruct (finite_positive l1 F1 G1) as [a [-> Ha]].
    destruct (finite_positive l2 F2 G2) as [b [-> Hb]].
    simpl in H. qbool.
    destruct (div_positive cap a Hc Ha) as [[Ec Ea] | [Fc [Pc [sa Ea]]]];
      destruct (div_positive cap b Hc Hb) as [[Ec' Eb] | [Fc' [_ [sb Eb]]]];
      rewrite Ea, Eb.
    + reflexivity.
    + rewrite Ec in Fc'. discriminate.
    + rewrite Ec' in Fc. discriminate.
    + apply round_mono.
      assert (I : / b <= / a).
      { apply Qle_shift_inv_l; [assumption |].
        rewrite Qmult_comm. apply Qle_shift_div_r; lra. }
      unfold Qdiv. nra.
  - assert (S1 : safetyOf cap l1 = Inf false) by (unfold safetyOf; now rewrite E1).
    rewrite S1. apply leb_Inf, safetyOf_notNaN, Hc.
Qed.

(** The same parameters with another grid load. *)
Definition withGridPsf (p : Params) (g : num) : Params :=
  {| gridPsf := g;
     allowedChannelSpacings := allowedChannelSpacings p;
     allowedClipSpacings := allowedClipSpacings p;
     constrainToStructure := constrainToStructure p;
     structureSpacing := structureSpacing p;
     clipCap := clipCap p |}.

(** Over positive spacings the load per clip grows with the grid load, as
    long as one of the two loads compared is finite. *)
Lemma loadPerClip_monotone ch cl g1 g2 :
  positive ch -> positive cl ->
  isFinite g1 = true -> isFinite g2 = true -> leb g1 g2 = true ->
  isFinite (mul (div (mul ch cl) (Fin 144)) g1) = true \/
  isFinite (mul (div (mul ch cl) (Fin 144)) g2) = true ->
  leb (mul (div (mul ch cl) (Fin 144)) g1) (mul (div (mul ch cl) (Fin 144)) g2) = true.
Proof.
  intros Hch Hcl F1 F2 H Hfin.
  destruct (tribArea_cases ch cl Hch Hcl) as [E | [Ft Pt]].
  - exfalso. rewrite E in Hfin.
    destruct g1, g2; try discriminate; simpl in Hfin;
      repeat match goal with
             | H : context [if ?b then _ else _] |- _ => destruct b
             end; simpl in Hfin; intuition discriminate.
  - rewrite (mul_finite _ g1), (mul_finite _ g2) by assumption.
    apply round_mono.
    rewrite leb_finite in H by assumption. qbool. nra.
Qed.

(** C8, as stated, fails at an overflow.  Over the same spacings: from a
    grid load of 1 psf to the larger binary64 grid load of [2^1023] psf the
    safety factor of the pair (12, 24) rises from 18 to [+Infinity]; from the
    binary64 grid load of [-2^1023] psf to the larger one of 1 psf the same
    pair turns from failing to passing. *)
Lemma overflow_breaks_monotonicity :
  positiveSpacings (menu (Fin 1)) /\
  (binary64 (Fin (Round.two 1023)) = true /\
   leb (Fin 1) (Fin (Round.two 1023)) = true /\
   In (combo (Fin 1) App.CLIP_CAP (Fin 12) (Fin 24)) (calcCombos (menu (Fin 1))) /\
   In (combo (Fin (Round.two 1023)) App.CLIP_CAP (Fin 12) (Fin 24))
      (calcCombos (menu (Fin (Round.two 1023)))) /\
   safety (combo (Fin 1) App.CLIP_CAP (Fin 12) (Fin 24)) = Fin 18 /\
   safety (combo (Fin (Round.two 1023)) App.CLIP_CAP (Fin 12) (Fin 24)) = Inf false /\
   leb (safety (combo (Fin (Round.two 1023)) App.CLIP_CAP (Fin 12) (Fin 24)))
       (safety (combo (Fin 1) App.CLIP_CAP (Fin 12) (Fin 24))) = false) /\
  (binary64 (Fin (- Round.two 1023)) = true /\
   leb (Fin (- Round.two 1023)) (Fin 1) = true /\
   In (combo (Fin (- Round.two 1023)) App.CLIP_CAP (Fin 12) (Fin 24))
      (calcCombos (menu (Fin (- Round.two 1023)))) /\
   pass (combo (Fin (- Round.two 1023)) App.CLIP_CAP (Fin 12) (Fin 24)) = false /\
   pass (combo (Fin 1) App.CLIP_CAP (Fin 12) (Fin 24)) = true).
Proof.
  split; [apply menu_positive |].
  conjs; solve [run | run_In].
Qed.

Lemma leb_finite_l x y :
  leb x y = true -> isFinite y = true -> x <> Inf true -> isFinite x = true.
Proof. destruct x as [| [] | |], y; simpl; congruence. Qed.

Lemma leb_finite_r x y :
  leb x y = true -> isFinite x = true -> y = Inf false \/ isFinite y = true.
Proof. destruct x, y as [| [] | |]; simpl; auto; congruence. Qed.

(** C8, amended. Over positive spacing candidates and a capacity that is not
    negative, for finite grid loads [g1 <= g2] and a combination of the same
    two spacings: unless its load per clip under [g1] overflows to
    [-Infinity], if it fails under [g1] it fails under [g2]; unless its load
    per clip under [g2] overflows to [+Infinity], its safety factor under
    [g2] is not above the one under [g1]. *)
Theorem gridLoad_monotone p g1 g2 c1 c2 :
  positiveSpacings p -> leb (Fin 0) (clipCap p) = true ->
  isFinite g1 = true -> isFinite g2 = true -> leb g1 g2 = true ->
  In c1 (calcCombos (withGridPsf p g1)) ->
  In c2 (calcCombos (withGridPsf p g2)) ->
  channelOC c1 = channelOC c2 -> clipOC c1 = clipOC c2 ->
  (loadPerClip c1 <> Inf true -> pass c1 = false -> pass c2 = false) /\
  (loadPerClip c2 <> Inf false -> leb (safety c2) (safety c1) = true).
Proof.
  intros Hp Hcap F1 F2 H H1 H2 Ech Ecl.
  pose proof (channels_positive p Hp) as Pc. pose proof (clips_positive p Hp) as Pl.
  rewrite Forall_forall in Pc, Pl.
  apply calcCombos_In in H1 as [ch [cl [Hch [Hcl ->]]]].
  apply calcCombos_In in H2 as [ch' [cl' [_ [_ ->]]]].
  cbn [channelOC clipOC combo] in Ech, Ecl. subst ch' cl'.
  cbn [pass safety loadPerClip combo withGridPsf gridPsf clipCap].
  change (channels (withGridPsf p g1)) with (channels p) in Hch.
  change (clips (withGridPsf p g1)) with (clips p) in Hcl.
  set (l1 := mul (div (mul ch cl) (Fin 144)) g1).
  set (l2 := mul (div (mul ch cl) (Fin 144)) g2).
  assert (L : isFinite l1 = true \/ isFinite l2 = true -> leb l1 l2 = true).
  { apply loadPerClip_monotone; auto. }
  split.
  - intros N1 P1.
    destruct (isFinite l2) eqn:Fl2; [| reflexivity]. cbn [andb].
    destruct (leb l2 (clipCap p)) eqn:P2; [| reflexivity].
    assert (L12 : leb l1 l2 = true) by auto.
    rewrite (leb_finite_l l1 l2 L12 Fl2 N1) in P1. cbn [andb] in P1.
    rewrite (leb_trans l1 l2 (clipCap p)) in P1; auto.
  - intros N2. fold (safetyOf (clipCap p) l1). fold (safetyOf (clipCap p) l2).
    destruct (isFinite l2) eqn:Fl2.
    + apply safetyOf_antitone; auto.
    + assert (S2 : safetyOf (clipCap p) l2 = Inf false)
        by (unfold safetyOf; now rewrite Fl2).
      rewrite S2. unfold safetyOf.
      destruct (isFinite l1) eqn:Fl1; [| reflexivity].
      assert (L12 : leb l1 l2 = true) by auto.
      destruct (leb_finite_r l1 l2 L12 Fl1); congruence.
Qed.

Lemma gridLoad_monotone_witness :
  let c1 := combo (Fin 4) App.CLIP_CAP (Fin 24) (Fin 48) in
  let c2 := combo (Fin (19 # 2)) App.CLIP_CAP (Fin 24) (Fin 48) in
  (pass c1 = true /\ pass c2 = false /\ safety c1 = Fin (9 # 8)) /\
  (loadPerClip c1 <> Inf true -> pass c1 = false -> pass c2 = false) /\
  (loadPerClip c2 <> Inf false -> leb (safety c2) (safety c1) = true).
Proof.
  intros c1 c2. split; [conjs; run |].
  apply (gridLoad_monotone (menu (Fin 0)) (Fin 4) (Fin (19 # 2)) c1 c2);
    [apply menu_positive | run | run | run | run | run_In | run_In | run | run].
Defined.

(** *** Passing and the safety factor *)

(** A positive finite result of [round] is the rounded magnitude of a
    positive rational. *)
Lemma round_Fin_positive s q l :
  round s q = Fin l -> 0 < l -> 0 < q /\ l == Round.rmag q.
Proof.
  unfold round. destruct (Qcompare q 0) eqn:C.
  - destruct s; intros [= <-] H; lra.
  - apply Qlt_alt in C.
    assert (0 <= Round.rmag (- q)) by (apply Round.rmag_nonneg; lra).
    destruct (Qle_bool huge (Round.rmag (- q))); [discriminate |].
    destruct (Qeq_bool (Round.rmag (- q)) 0); [discriminate |].
    intros E P. apply (f_equal val) in E. cbn [val] in E.
    rewrite <- E, Qred_correct in P. lra.
  - apply Qgt_alt in C.
    destruct (Qle_bool huge (Round.rmag q)); [discriminate |].
    intros E _. apply (f_equal val) in E. cbn [val] in E.
    split; [assumption |]. rewrite <- E. apply Qred_correct.
Qed.

Lemma mul_Fin x y l : mul x y = Fin l -> exists s q, round s q = Fin l.
Proof.
  destruct x as [| sx | | a], y as [| sy | | b]; cbn [mul]; intros H;
    try discriminate; try (eexists; eexists; exact H);
    match type of H with
    | (if ?c then _ else _) = _ => destruct c; discriminate
    end.
Qed.

(** The quotient of 36 by the least binary64 value above 36 is rounded to a
    number below 1. *)
Lemma below_one :
  ltb (round false (36 / (36 + Round.two (-47)))) (Fin 1) = true.
Proof. run. Qed.

Lemma round_one : round false 1 = Fin 1.
Proof. run. Qed.

(** A load per clip above the capacity of 36 has a safety factor below 1. *)
Lemma safety_below_one x y l :
  mul x y = Fin l -> 36 < l -> geb (div App.CLIP_CAP (Fin l)) (Fin 1) = false.
Proof.
  intros E H. destruct (mul_Fin x y l E) as [s [q R]].
  destruct (round_Fin_positive s q l R) as [Hq Hl]; [lra |].
  assert (G : 36 + Round.two (-47) <= l).
  { rewrite Hl. apply Round.rmag_gap36; [assumption | now rewrite <- Hl]. }
  unfold geb, App.CLIP_CAP. rewrite div_finite; try reflexivity.
  - apply ltb_leb_false. eapply leb_ltb_trans; [| apply below_one].
    apply round_mono. cbn [val].
    pose proof (Round.two_pos (-47)) as P.
    apply Qle_shift_div_l; [lra |].
    assert (I : / l <= / (36 + Round.two (-47))).
    { apply Qle_shift_inv_l; [lra |].
      rewrite Qmult_comm. apply Qle_shift_div_r; lra. }
    unfold Qdiv. rewrite <- Qmult_assoc.
    assert (J : / l * (36 + Round.two (-47)) <= 1).
    { setoid_replace 1 with (/ (36 + Round.two (-47)) * (36 + Round.two (-47))).
      - apply Qmult_le_compat_r; lra.
      - rewrite Qmult_comm, Qmult_inv_r; [reflexivity | lra]. }
    nra.
  - simpl. qbool. lra.
Qed.

(** The least positive binary64 grid load over the single pair of spacings
    12 in and 12 in, a tributary area of one square foot. *)
Definition underflowing : Params :=
  {| gridPsf := Fin (Round.two (-1074));
     allowedChannelSpacings := [Fin 12];
     allowedClipSpacings := [Fin 12];
     constrainToStructure := false;
     structureSpacing := Fin 48;
     clipCap := App.CLIP_CAP |}.

(** C10, as stated, fails: the combination passes with a load per clip above
    zero, and its safety factor, the quotient [36 / 2^-1074], overflows to
    [+Infinity]: it is not finite. *)
Lemma passing_safety_not_finite :
  binary64 (gridPsf underflowing) = true /\
  map loadPerClip (calcCombos underflowing) = [Fin (Round.two (-1074))] /\
  map pass (calcCombos underflowing) = [true] /\
  map (fun c => gtb (loadPerClip c) (Fin 0)) (calcCombos underflowing) = [true] /\
  map safety (calcCombos underflowing) = [Inf false] /\
  map (fun c => isFinite (safety c)) (calcCombos underflowing) = [false].
Proof. conjs; run. Qed.

(** C10, amended. A combination of the enumerated sequence that passes with
    a load per clip above zero has a safety factor of at least 1, which is
    [+Infinity] when the quotient overflows; and under the capacity of 36 a
    combination with a finite load per clip above zero passes exactly when
    its safety factor is at least 1. *)
Theorem pass_iff_safety_at_least_one p c :
  In c (calcCombos p) ->
  (pass c = true -> gtb (loadPerClip c) (Fin 0) = true ->
   geb (safety c) (Fin 1) = true) /\
  (clipCap p = App.CLIP_CAP ->
   isFinite (loadPerClip c) = true -> gtb (loadPerClip c) (Fin 0) = true ->
   (pass c = true <-> geb (safety c) (Fin 1) = true)).
Proof.
  intros H. destruct (calcCombos_fields p c H) as [_ [El [Ep Es]]].
  assert (Fwd : pass c = true -> gtb (loadPerClip c) (Fin 0) = true ->
                geb (safety c) (Fin 1) = true).
  { intros P G. rewrite Ep in P. apply andb_true_iff in P as [F L].
    rewrite Es, F, G. cbn [andb].
    destruct (finite_positive _ F G) as [l [E Hl]]. rewrite E in *.
    assert (Hc : leb (Fin 0) (clipCap p) = true).
    { apply leb_trans with (Fin l); [simpl; qbool; lra | exact L]. }
    unfold geb.
    destruct (div_positive (clipCap p) l Hc Hl) as [[_ ->] | [Fc [_ [s ->]]]];
      [reflexivity |].
    rewrite <- round_one. apply round_mono.
    rewrite leb_finite in L by (reflexivity || assumption). cbn [val] in L. qbool.
    apply Qle_shift_div_l; lra. }
  split; [exact Fwd |].
  intros Ec F G. split; [intros P; now apply Fwd |].
  intros S. rewrite Ep, F. cbn [andb].
  destruct (leb (loadPerClip c) (clipCap p)) eqn:L; [reflexivity | exfalso].
  rewrite Es, F, G in S. cbn [andb] in S.
  destruct (finite_positive _ F G) as [l [E Hl]].
  rewrite E, Ec in *. simpl in L. qbool.
  rewrite (safety_below_one _ _ l (eq_sym El) L) in S. discriminate.
Qed.

Lemma pass_iff_safety_at_least_one_witness :
  let c := combo (Fin (19 # 2)) App.CLIP_CAP (Fin 16) (Fin 32) in
  (pass c = true -> gtb (loadPerClip c) (Fin 0) = true ->
   geb (safety c) (Fin 1) = true) /\
  (clipCap (menu (Fin (19 # 2))) = App.CLIP_CAP ->
   isFinite (loadPerClip c) = true -> gtb (loadPerClip c) (Fin 0) = true ->
   (pass c = true <-> geb (safety c) (Fin 1) = true)).
Proof.
  intros c. apply (pass_iff_safety_at_least_one (menu (Fin (19 # 2))) c). run_In.
Defined.

(** * Further properties of the source *)

(** ** Whole numbers are computed exactly *)

Lemma rmag_exact a m :
  0 < a -> a * Round.two (- Round.expo a) == inject_Z m -> Round.rmag a == a.
Proof.
  intros Ha E. unfold Round.rmag, Round.mant.
  rewrite (Round.rne_comp _ _ E), Round.rne_Z, <- E.
  rewrite <- Qmult_assoc, (Qmult_comm (Round.two (- _))), Round.two_inv. ring.
Qed.

(** A whole number below [2^53] is a binary64 value. *)
Lemma rmag_whole z : (0 < z < 2 ^ 53)%Z -> Round.rmag (inject_Z z) == inject_Z z.
Proof.
  intros [Hp Hu].
  assert (Ha : 0 < inject_Z z) by (change 0 with (inject_Z 0); now rewrite <- Zlt_Qlt).
  destruct (Round.ilog2_spec _ Ha) as [L U].
  assert (K0 : (0 <= Round.ilog2 (inject_Z z))%Z).
  { assert (T : Round.two 0 < Round.two (Round.ilog2 (inject_Z z) + 1)).
    { eapply Qle_lt_trans; [| exact U]. change (Round.two 0) with (inject_Z 1).
      rewrite <- Zle_Qle. lia. }
    apply Round.two_lt_inv in T. lia. }
  assert (K1 : (Round.ilog2 (inject_Z z) < 53)%Z).
  { apply Round.two_lt_inv. eapply Qle_lt_trans; [exact L |].
    rewrite Round.two_Z by lia. now rewrite <- Zlt_Qlt. }
  assert (E : (Round.expo (inject_Z z) <= 0)%Z) by (unfold Round.expo; lia).
  apply (rmag_exact _ (z * 2 ^ (- Round.expo (inject_Z z))) Ha).
  rewrite Round.two_Z by lia. now rewrite inject_Z_mult.
Qed.

Lemma Qred_inject_Z z : Qred (inject_Z z) = inject_Z z.
Proof.
  unfold Qred, inject_Z.
  pose proof (Z.ggcd_gcd z 1) as G. pose proof (Z.ggcd_correct_divisors z 1) as D.
  destruct (Z.ggcd z 1) as [g [a b]]. simpl in *.
  rewrite Z.gcd_1_r in G. subst g. destruct D as [-> D].
  assert (b = 1%Z) by lia. subst b. simpl. now destruct a.
Qed.

Lemma huge_above z : (z < 2 ^ 53)%Z -> inject_Z z < JsNum.huge.
Proof.
  intros H. unfold JsNum.huge. rewrite Round.two_Z by lia.
  rewrite <- Zlt_Qlt. assert ((2 ^ 53 < 2 ^ 1024)%Z) by (apply Z.pow_lt_mono_r; lia).
  lia.
Qed.

(** Rounding leaves a whole number of magnitude below [2^53] unchanged. *)
Lemma round_whole s q z :
  q == inject_Z z -> (0 <= z < 2 ^ 53)%Z -> round false q = Fin (inject_Z z) /\
  (z <> 0%Z -> round s q = Fin (inject_Z z)).
Proof.
  intros E [Hp Hu].
  assert (R : forall s', z <> 0%Z -> round s' q = Fin (inject_Z z)).
  { intros s' Nz. rewrite (round_comp s' q (inject_Z z) E). unfold round.
    assert (P : 0 < inject_Z z)
      by (change 0 with (inject_Z 0); rewrite <- Zlt_Qlt; lia).
    apply Qgt_alt in P. rewrite P.
    assert (V : Round.rmag (inject_Z z) == inject_Z z) by (apply rmag_whole; lia).
    assert (B : Qle_bool huge (Round.rmag (inject_Z z)) = false).
    { qbool. rewrite V. now apply huge_above. }
    rewrite B. f_equal. rewrite (Qred_complete _ _ V). apply Qred_inject_Z. }
  split; [| apply R].
  destruct (Z.eq_dec z 0) as [-> | Nz]; [| now apply R].
  rewrite (round_comp false q (inject_Z 0) E). reflexivity.
Qed.

Lemma mul_whole a b :
  (0 <= a)%Z -> (0 <= b)%Z -> (a * b < 2 ^ 53)%Z ->
  mul (Fin (inject_Z a)) (Fin (inject_Z b)) = Fin (inject_Z (a * b)).
Proof.
  intros Ha Hb H. cbn [mul sign].
  assert (Sa : Qle_bool 0 (inject_Z a) = true)
    by (qbool; change 0 with (inject_Z 0); now rewrite <- Zle_Qle).
  assert (Sb : Qle_bool 0 (inject_Z b) = true)
    by (qbool; change 0 with (inject_Z 0); now rewrite <- Zle_Qle).
  rewrite Sa, Sb. cbn [negb xorb val].
  refine (proj1 (round_whole false _ (a * b) _ _)); [now rewrite inject_Z_mult | lia].
Qed.

Lemma add_whole a b :
  (0 <= a)%Z -> (0 <= b)%Z -> (a + b < 2 ^ 53)%Z ->
  add (Fin (inject_Z a)) (Fin (inject_Z b)) = Fin (inject_Z (a + b)).
Proof.
  intros Ha Hb H. cbn [add sign].
  assert (Sa : Qle_bool 0 (inject_Z a) = true)
    by (qbool; change 0 with (inject_Z 0); now rewrite <- Zle_Qle).
  rewrite Sa. cbn [negb andb val].
  refine (proj1 (round_whole false _ (a + b) _ _)); [now rewrite inject_Z_plus | lia].
Qed.

(** X1. For whole cloud counts that are not negative and a total weight
    below [2^53], the total cloud weight is exactly
    [15 n1 + 30 n2 + 45 n3 + 60 n4], and in the dedicated mount mode the
    dedicated clip count is exactly four times the number of clouds: no
    rounding takes place. *)
Theorem cloud_totals_exact n1 n2 n3 n4 :
  (0 <= n1)%Z -> (0 <= n2)%Z -> (0 <= n3)%Z -> (0 <= n4)%Z ->
  (15 * n1 + 30 * n2 + 45 * n3 + 60 * n4 < 2 ^ 53)%Z ->
  App.totalCloudWeight (Fin (inject_Z n1)) (Fin (inject_Z n2))
                       (Fin (inject_Z n3)) (Fin (inject_Z n4))
  = Fin (inject_Z (15 * n1 + 30 * n2 + 45 * n3 + 60 * n4)) /\
  App.dedicatedCloudClips "dedicated" (Fin (inject_Z n1)) (Fin (inject_Z n2))
                          (Fin (inject_Z n3)) (Fin (inject_Z n4))
  = Fin (inject_Z (4 * (n1 + n2 + n3 + n4))).
Proof.
  intros H1 H2 H3 H4 H. split.
  - unfold App.totalCloudWeight.
    change (Fin 15) with (Fin (inject_Z 15)). change (Fin 30) with (Fin (inject_Z 30)).
    change (Fin 45) with (Fin (inject_Z 45)). change (Fin 60) with (Fin (inject_Z 60)).
    rewrite !mul_whole by lia. rewrite !add_whole by lia.
    do 2 f_equal. ring.
  - unfold App.dedicatedCloudClips. cbn [String.eqb Ascii.eqb Bool.eqb negb].
    rewrite !add_whole by lia. change (Fin 4) with (Fin (inject_Z 4)).
    rewrite mul_whole by lia. do 2 f_equal. ring.
Qed.

Lemma cloud_totals_exact_witness :
  App.totalCloudWeight (Fin 1) (Fin 0) (Fin 2) (Fin 4) = Fin 345 /\
  App.dedicatedCloudClips "dedicated" (Fin 1) (Fin 0) (Fin 2) (Fin 4) = Fin 28.
Proof.
  apply (cloud_totals_exact 1 0 2 4); try (vm_compute; discriminate).
  vm_compute. reflexivity.
Defined.

(** ** The structure constraint and empty menus *)

(** The same parameters with another list of clip spacings. *)
Definition withClipSpacings (p : Params) (cls : list num) : Params :=
  {| gridPsf := gridPsf p;
     allowedChannelSpacings := allowedChannelSpacings p;
     allowedClipSpacings := cls;
     constrainToStructure := constrainToStructure p;
     structureSpacing := structureSpacing p;
     clipCap := clipCap p |}.

(** X2. When clips must land on structure, every combination of the
    enumerated sequence has the structure spacing as its clip spacing, there
    is one combination per channel spacing, and the list of allowed clip
    spacings has no effect on the sequence. *)
Theorem structure_constraint_collapse p :
  constrainToStructure p = true ->
  (forall c, In c (calcCombos p) -> clipOC c = structureSpacing p) /\
  List.length (calcCombos p) = List.length (channels p) /\
  (forall cls, calcCombos (withClipSpacings p cls) = calcCombos p).
Proof.
  intros H.
  assert (E : clips p = [structureSpacing p]) by (unfold clips; now rewrite H).
  repeat split.
  - intros c Hc. apply calcCombos_In in Hc as [ch [cl [_ [Hcl ->]]]].
    rewrite E in Hcl. destruct Hcl as [<- | []]. reflexivity.
  - rewrite calcCombos_length, E. simpl. lia.
  - intros cls. unfold calcCombos, out, clips. cbn [withClipSpacings constrainToStructure].
    now rewrite H.
Qed.

(** The default menu over a grid load of 19/2 psf, clips on structure at
    48 in. *)
Definition onStructure : Params :=
  {| gridPsf := Fin (19 # 2);
     allowedChannelSpacings := [Fin 12; Fin 16; Fin 24];
     allowedClipSpacings := [Fin 24; Fin 32; Fin 36; Fin 48];
     constrainToStructure := true;
     structureSpacing := Fin 48;
     clipCap := App.CLIP_CAP |}.

Lemma structure_constraint_collapse_witness :
  map clipOC (calcCombos onStructure) = [Fin 48; Fin 48; Fin 48] /\
  (forall c, In c (calcCombos onStructure) -> clipOC c = Fin 48) /\
  List.length (calcCombos onStructure) = List.length (channels onStructure) /\
  (forall cls, calcCombos (withClipSpacings onStructure cls) = calcCombos onStructure).
Proof.
  split; [run |].
  exact (structure_constraint_collapse onStructure eq_refl).
Defined.

Lemma flat_map_nil {A B} (l : list A) : flat_map (fun _ : A => @nil B) l = [].
Proof. induction l; simpl; auto. Qed.

(** X3. With no channel spacing allowed, or with no clip spacing allowed and
    no structure constraint, the enumerated sequence is empty, there is no
    recommendation, and the estimated clip count on the grid is [0] for every
    area. *)
Theorem empty_menu p :
  allowedChannelSpacings p = [] \/
  (constrainToStructure p = false /\ allowedClipSpacings p = []) ->
  calcCombos p = [] /\
  firstPassing (calcCombos p) = None /\
  forall area, App.estimatedClipsOnGrid (firstPassing (calcCombos p)) area = Fin 0.
Proof.
  intros H.
  assert (E : calcCombos p = []).
  { unfold calcCombos, out. destruct H as [H | [Hc H]].
    - unfold channels. rewrite H. reflexivity.
    - unfold clips. rewrite Hc, H. cbn [fromSet fold_left sort fold_right map].
      now rewrite flat_map_nil. }
  rewrite E. repeat split.
Qed.

Lemma empty_menu_witness :
  calcCombos (withClipSpacings (menu (Fin (19 # 2))) []) = [] /\
  firstPassing (calcCombos (withClipSpacings (menu (Fin (19 # 2))) [])) = None /\
  forall area,
    App.estimatedClipsOnGrid
      (firstPassing (calcCombos (withClipSpacings (menu (Fin (19 # 2))) []))) area
    = Fin 0.
Proof.
  apply (empty_menu (withClipSpacings (menu (Fin (19 # 2))) [])).
  right. split; reflexivity.
Defined.

(** ** De-duplication of the spacing menus *)

(** [sameValue0 x y]: [x] and [y] are the same value for a [Set]. *)
Definition sameValue0 (x y : num) : Prop := sameValueZero x y = true.

Lemma sameValueZero_refl x : sameValueZero x x = true.
Proof. destruct x as [| [] | | a]; simpl; try reflexivity; apply Qeq_bool_refl. Qed.

Lemma sameValueZero_sym x y : sameValueZero x y = sameValueZero y x.
Proof.
  destruct x as [| [] | | a], y as [| [] | | b]; simpl; try reflexivity;
    apply Qeq_bool_comm.
Qed.

Lemma sameValueZero_trans x y z :
  sameValueZero x y = true -> sameValueZero y z = true -> sameValueZero x z = true.
Proof.
  destruct x as [| [] | | a], y as [| [] | | b], z as [| [] | | c];
    simpl; intros H1 H2; try discriminate; try reflexivity; qbool;
    (now rewrite H1) || (now rewrite <- H2) || idtac.
Qed.

#[local] Instance sameValue0_equiv : Equivalence sameValue0.
Proof.
  split.
  - intros x. apply sameValueZero_refl.
  - intros x y H. unfold sameValue0. now rewrite sameValueZero_sym.
  - intros x y z. apply sameValueZero_trans.
Qed.

Lemma plusZero_same x y : sameValueZero (plusZero x) y = sameValueZero x y.
Proof. destruct x, y; reflexivity. Qed.

Lemma existsb_InA x l :
  existsb (sameValueZero x) l = true <-> InA sameValue0 x l.
Proof.
  rewrite existsb_exists, InA_alt. split; intros [y [H1 H2]]; exists y; auto.
Qed.

Lemma setAdd_NoDupA acc x :
  NoDupA sameValue0 acc -> NoDupA sameValue0 (setAdd acc x).
Proof.
  intros H. unfold setAdd. destruct (existsb (sameValueZero x) acc) eqn:E; [assumption |].
  apply NoDupA_app; [apply sameValue0_equiv | assumption | |].
  - constructor; [| constructor]. intros C. inversion C.
  - intros y Hy Hx. inversion Hx as [? ? S | ? ? C]; [| inversion C]. subst.
    assert (T : InA sameValue0 x acc).
    { rewrite InA_alt in Hy |- *. destruct Hy as [z [Hz Hin]]. exists z.
      split; [| assumption]. unfold sameValue0 in *.
      rewrite <- plusZero_same. eapply sameValueZero_trans; [| exact Hz].
      rewrite sameValueZero_sym. exact S. }
    apply existsb_InA in T. congruence.
Qed.

Lemma setAdd_InA acc x :
  InA sameValue0 x (setAdd acc x) /\
  (forall y, InA sameValue0 y acc -> InA sameValue0 y (setAdd acc x)).
Proof.
  unfold setAdd. destruct (existsb (sameValueZero x) acc) eqn:E.
  - split; [now apply existsb_InA | auto].
  - split.
    + apply InA_app_iff. right. constructor. unfold sameValue0.
      rewrite sameValueZero_sym, plusZero_same. apply sameValueZero_refl.
    + intros y Hy. apply InA_app_iff. now left.
Qed.

Lemma setAdd_In acc x y :
  In y (setAdd acc x) -> In y acc \/ y = plusZero x.
Proof.
  unfold setAdd. destruct (existsb (sameValueZero x) acc); [auto |].
  rewrite in_app_iff. simpl. intuition.
Qed.

Lemma fold_setAdd l :
  forall acc,
    NoDupA sameValue0 acc ->
    NoDupA sameValue0 (fold_left setAdd l acc) /\
    (forall x, In x l \/ InA sameValue0 x acc ->
               InA sameValue0 x (fold_left setAdd l acc)) /\
    (forall y, In y (fold_left setAdd l acc) ->
               In y acc \/ exists x, In x l /\ y = plusZero x).
Proof.
  induction l as [| a l IH]; intros acc N; simpl.
  - repeat split; auto. intros x [[] | H]; assumption.
  - destruct (IH (setAdd acc a) (setAdd_NoDupA acc a N)) as [N' [C I]].
    destruct (setAdd_InA acc a) as [Ia Iacc].
    repeat split; [assumption | |].
    + intros x [[<- | H] | H]; apply C; auto.
    + intros y Hy. destruct (I y Hy) as [H | [x [Hx ->]]].
      * apply setAdd_In in H as [H | ->]; eauto.
      * eauto.
Qed.

Lemma fromSet_spec l :
  NoDupA sameValue0 (fromSet l) /\
  (forall x, In x l -> InA sameValue0 x (fromSet l)) /\
  (forall y, In y (fromSet l) -> exists x, In x l /\ y = plusZero x).
Proof.
  destruct (fold_setAdd l [] (NoDupA_nil _)) as [N [C I]].
  repeat split; [exact N | intros; apply C; auto |].
  intros y Hy. destruct (I y Hy) as [[] | H]. exact H.
Qed.

(** What holds of a de-duplicated list holds of it once sorted. *)
Lemma sorted_fromSet_spec l :
  NoDupA sameValue0 (sort ascending (fromSet l)) /\
  (forall x, In x l -> InA sameValue0 x (sort ascending (fromSet l))) /\
  (forall y, In y (sort ascending (fromSet l)) ->
             exists x, In x l /\ y = plusZero x).
Proof.
  destruct (fromSet_spec l) as [N [C I]].
  pose proof (sort_perm ascending (fromSet l)) as P.
  repeat split.
  - eapply PermutationA_preserves_NoDupA; [apply sameValue0_equiv | | exact N].
    apply Permutation_PermutationA; [apply sameValue0_equiv | exact P].
  - intros x Hx. specialize (C x Hx). rewrite InA_alt in C |- *.
    destruct C as [y [S Hy]]. exists y. split; [assumption |].
    exact (proj2 (sort_In ascending y (fromSet l)) Hy).
  - intros y Hy. apply I. exact (proj1 (sort_In ascending y (fromSet l)) Hy).
Qed.

(** X4. However often a spacing is listed, it is evaluated once: the channel
    spacings the loops run over are pairwise different values, every allowed
    channel spacing is among them, and each of them is an allowed channel
    spacing (with [-0] stored as [+0]); the same holds of the clip spacings
    when there is no structure constraint. *)
Theorem spacings_evaluated_once p :
  (NoDupA sameValue0 (channels p) /\
   (forall x, In x (allowedChannelSpacings p) -> InA sameValue0 x (channels p)) /\
   (forall y, In y (channels p) ->
              exists x, In x (allowedChannelSpacings p) /\ y = plusZero x)) /\
  (constrainToStructure p = false ->
   NoDupA sameValue0 (clips p) /\
   (forall x, In x (allowedClipSpacings p) -> InA sameValue0 x (clips p)) /\
   (forall y, In y (clips p) ->
              exists x, In x (allowedClipSpacings p) /\ y = plusZero x)).
Proof.
  split.
  - apply sorted_fromSet_spec.
  - intros H. unfold clips. rewrite H. apply sorted_fromSet_spec.
Qed.

(** A menu that lists 24 in three times, once as [48 / 2], and 48 in twice. *)
Definition repeated : Params :=
  {| gridPsf := Fin 1;
     allowedChannelSpacings := [Fin 24; Fin 12; Fin 24; Fin (48 # 2)];
     allowedClipSpacings := [Fin 48; Fin 48];
     constrainToStructure := false;
     structureSpacing := Fin 48;
     clipCap := App.CLIP_CAP |}.

Lemma spacings_evaluated_once_witness :
  (channels repeated = [Fin 12; Fin 24] /\ clips repeated = [Fin 48]) /\
  NoDupA sameValue0 (clips repeated) /\
  (forall x, In x (allowedClipSpacings repeated) ->
             InA sameValue0 x (clips repeated)) /\
  (forall y, In y (clips repeated) ->
             exists x, In x (allowedClipSpacings repeated) /\ y = plusZero x).
Proof.
  split; [split; run |].
  exact (proj2 (spacings_evaluated_once repeated) eq_refl).
Defined.

(** ** Ties of the sort *)

Section Stable.
Context {A : Type}.
Variable cmp : A -> A -> num.
Variable P : A -> bool.

(** Inserting [x] never moves it past an element of its own class [P]. *)
Lemma filter_insert x l :
  (P x = true -> forall y, In y l -> P y = true -> after cmp x y = false) ->
  filter P (insert cmp x l) = filter P (x :: l).
Proof.
  induction l as [| y l IH]; intros H; [reflexivity |].
  cbn [insert]. destruct (after cmp x y) eqn:E; [| reflexivity].
  cbn [filter]. rewrite IH by (intros Px z Hz; apply H; simpl; auto).
  cbn [filter]. destruct (P x) eqn:Px; [| reflexivity].
  destruct (P y) eqn:Py; [| reflexivity].
  rewrite (H eq_refl y) in E by (simpl; auto). discriminate.
Qed.

Lemma filter_sort l :
  (forall x y, In x l -> In y l -> P x = true -> P y = true ->
               after cmp x y = false) ->
  filter P (sort cmp l) = filter P l.
Proof.
  induction l as [| x l IH]; intros H; [reflexivity |].
  cbn [sort fold_right]. fold (sort cmp l). rewrite filter_insert.
  - cbn [filter]. rewrite IH by (intros; apply H; simpl; auto). reflexivity.
  - intros Px y Hy Py. apply (proj1 (sort_In cmp y l)) in Hy.
    apply H; simpl; auto.
Qed.
End Stable.

Lemma eqb_ltb_false a b v :
  eqb a v = true -> eqb b v = true -> ltb a b = false.
Proof.
  destruct a as [| [] | | x], b as [| [] | | y], v as [| [] | | z];
    simpl; intros H1 H2; try discriminate; try reflexivity; qbool; lra.
Qed.

(** X5. Over positive spacing candidates the sort of [calcCombos] is stable:
    the combinations whose spacing product equals a given value stand in the
    enumerated sequence in the order in which the loops pushed them. *)
Theorem equal_products_keep_order p v :
  positiveSpacings p ->
  filter (fun c => eqb (spacingProduct c) v) (calcCombos p)
  = filter (fun c => eqb (spacingProduct c) v) (out p).
Proof.
  intros Hp. unfold calcCombos. apply filter_sort.
  intros x y Hx Hy Px Py. rewrite (after_widestFirst p) by assumption.
  eapply eqb_ltb_false; eassumption.
Qed.

Lemma equal_products_keep_order_witness :
  map (fun c => (channelOC c, clipOC c))
      (filter (fun c => eqb (spacingProduct c) (Fin 768))
              (calcCombos (menu (Fin (19 # 2)))))
  = [(Fin 16, Fin 48); (Fin 24, Fin 32)] /\
  filter (fun c => eqb (spacingProduct c) (Fin 768)) (calcCombos (menu (Fin (19 # 2))))
  = filter (fun c => eqb (spacingProduct c) (Fin 768)) (out (menu (Fin (19 # 2)))).
Proof.
  split; [run |].
  apply (equal_products_keep_order (menu (Fin (19 # 2))) (Fin 768)), menu_positive.
Defined.

(** ** The order in which spacings are listed *)

Lemma binary64_grid x : binary64 x = true -> grid x.
Proof.
  destruct x as [| s | | q]; try (intros _; now apply grid_zero).
  cbn [binary64]. pose proof (round_grid false q) as G.
  destruct (round false q) as [| | | q']; try discriminate.
  intros E. qbool. destruct G as [z Hz]. exists z. cbn [val] in *. now rewrite E.
Qed.

Lemma after_ascending a b :
  grid a -> grid b -> a <> NaN -> b <> NaN -> after ascending a b = ltb b a.
Proof. intros. unfold after, ascending. now apply sub_gtb. Qed.

Lemma positive_notNaN x : positive x -> x <> NaN.
Proof. intros H. apply (ltb_notNaN_r _ _ H). Qed.

Lemma leb_not_same a b :
  leb a b = true -> sameValueZero a b = false -> ltb a b = true.
Proof.
  destruct a as [| [] | | x], b as [| [] | | y];
    simpl; intros H1 H2; try discriminate; try reflexivity; qbool;
    apply Qnot_le_lt; intros C; apply H2; lra.
Qed.

Lemma ltb_asym a b : ltb a b = true -> ltb b a = true -> False.
Proof.
  destruct a as [| [] | | x], b as [| [] | | y];
    simpl; intros H1 H2; try discriminate; qbool; lra.
Qed.

(** A list of pairwise different values without [-0] is its own [Set]. *)
Lemma fold_setAdd_distinct l :
  forall acc,
    NoDupA sameValue0 l ->
    Forall (fun x => x <> NZero) l ->
    (forall x, In x l -> ~ InA sameValue0 x acc) ->
    fold_left setAdd l acc = (acc ++ l)%list.
Proof.
  induction l as [| a l IH]; intros acc N Z H; simpl.
  - now rewrite app_nil_r.
  - inversion N as [| ? ? Na Nl]. inversion Z as [| ? ? Za Zl]. subst.
    assert (E : setAdd acc a = (acc ++ [a])%list).
    { unfold setAdd. destruct (existsb (sameValueZero a) acc) eqn:B.
      - apply existsb_InA in B. exfalso. apply (H a); simpl; auto.
      - f_equal. f_equal. now destruct a. }
    rewrite E, IH, <- app_assoc; auto.
    intros x Hx C. apply InA_app_iff in C as [C | C].
    + apply (H x); simpl; auto.
    + inversion C as [? ? S | ? ? C']; [| inversion C']. subst.
      apply Na. apply InA_alt. exists x. split; [| assumption].
      unfold sameValue0 in *. now rewrite sameValueZero_sym.
Qed.

Lemma fromSet_distinct l :
  NoDupA sameValue0 l -> Forall (fun x => x <> NZero) l -> fromSet l = l.
Proof.
  intros N Z. unfold fromSet. rewrite fold_setAdd_distinct; auto.
  intros x _ C. inversion C.
Qed.

(** Two strictly ascending lists with the same elements are equal. *)
Lemma ascending_unique l :
  forall l',
    StronglySorted (fun a b => ltb a b = true) l ->
    StronglySorted (fun a b => ltb a b = true) l' ->
    Permutation l l' -> l = l'.
Proof.
  induction l as [| x t IH]; intros l' S S' P.
  - apply Permutation_nil in P. now subst.
  - destruct l' as [| x' t']; [apply Permutation_sym, Permutation_nil in P; discriminate |].
    inversion S as [| ? ? St Ft]. inversion S' as [| ? ? St' Ft']. subst.
    rewrite Forall_forall in Ft, Ft'.
    assert (E : x = x').
    { assert (I : In x (x' :: t')) by (eapply Permutation_in; [exact P | simpl; auto]).
      assert (I' : In x' (x :: t))
        by (eapply Permutation_in; [symmetry; exact P | simpl; auto]).
      destruct I as [-> | I]; [reflexivity |].
      destruct I' as [-> | I']; [reflexivity |].
      exfalso. eapply ltb_asym; [apply (Ft x' I') | apply (Ft' x I)]. }
    subst x'. f_equal. apply IH; auto. eapply Permutation_cons_inv; exact P.
Qed.

(** A spacing menu as the checkboxes keep it: positive binary64 values,
    each listed once. *)
Definition tidy (l : list num) : Prop :=
  Forall positive l /\ Forall (fun x => binary64 x = true) l /\
  NoDupA sameValue0 l.

Lemma tidy_Permutation l l' : Permutation l l' -> tidy l -> tidy l'.
Proof.
  intros P [H1 [H2 H3]]. repeat split.
  - eapply Permutation_Forall; eassumption.
  - eapply Permutation_Forall; eassumption.
  - eapply PermutationA_preserves_NoDupA; [apply sameValue0_equiv | | exact H3].
    apply Permutation_PermutationA; [apply sameValue0_equiv | exact P].
Qed.

Lemma tidy_sorted l :
  tidy l ->
  fromSet l = l /\
  StronglySorted (fun a b => ltb a b = true) (sort ascending l).
Proof.
  intros [Hp [Hb Hn]]. rewrite Forall_forall in Hp, Hb.
  split.
  - apply fromSet_distinct; [assumption |]. apply Forall_forall.
    intros x Hx ->. specialize (Hp _ Hx). discriminate.
  - assert (S : StronglySorted (fun a b => leb a b = true) (sort ascending l)).
    { apply Sorted_StronglySorted; [intros a b c; apply leb_trans |].
      apply sort_Sorted; intros a b Ha Hb' E;
        rewrite after_ascending in E
          by (try apply binary64_grid; try apply positive_notNaN; auto).
      - apply ltb_false_leb; [apply positive_notNaN .. |]; auto.
      - now apply ltb_leb. }
    assert (N : NoDupA sameValue0 (sort ascending l)).
    { eapply PermutationA_preserves_NoDupA; [apply sameValue0_equiv | | exact Hn].
      apply Permutation_PermutationA; [apply sameValue0_equiv | apply sort_perm]. }
    induction S as [| x t St IH Ft]; constructor.
    + apply IH. now inversion N.
    + inversion N as [| ? ? Nx Nt]. subst. rewrite Forall_forall in Ft |- *.
      intros y Hy. apply leb_not_same; [now apply Ft |].
      destruct (sameValueZero x y) eqn:E; [| reflexivity].
      exfalso. apply Nx. apply InA_alt. exists y. auto.
Qed.

Lemma tidy_sort_Permutation l l' :
  tidy l -> Permutation l l' ->
  sort ascending (fromSet l') = sort ascending (fromSet l).
Proof.
  intros T P. pose proof (tidy_Permutation l l' P T) as T'.
  destruct (tidy_sorted l T) as [-> S]. destruct (tidy_sorted l' T') as [-> S'].
  apply ascending_unique; auto.
  rewrite <- (sort_perm ascending l'), <- (sort_perm ascending l). now symmetry.
Qed.

(** The same parameters with other lists of allowed spacings. *)
Definition withMenus (p : Params) (chs cls : list num) : Params :=
  {| gridPsf := gridPsf p;
     allowedChannelSpacings := chs;
     allowedClipSpacings := cls;
     constrainToStructure := constrainToStructure p;
     structureSpacing := structureSpacing p;
     clipCap := clipCap p |}.

(** X6. For menus of positive binary64 spacings, each listed once, the
    enumerated sequence does not depend on the order in which the spacings
    are listed: listing the same spacings in another order gives the same
    sequence, so the same recommendation. *)
Theorem listing_order_irrelevant p chs cls :
  tidy (allowedChannelSpacings p) -> tidy (allowedClipSpacings p) ->
  Permutation (allowedChannelSpacings p) chs ->
  Permutation (allowedClipSpacings p) cls ->
  calcCombos (withMenus p chs cls) = calcCombos p /\
  firstPassing (calcCombos (withMenus p chs cls)) = firstPassing (calcCombos p).
Proof.
  intros Tc Tl Pc Pl.
  assert (E : calcCombos (withMenus p chs cls) = calcCombos p).
  { unfold calcCombos, out, channels, clips.
    cbn [withMenus allowedChannelSpacings allowedClipSpacings constrainToStructure
         structureSpacing gridPsf clipCap].
    rewrite (tidy_sort_Permutation _ chs Tc Pc).
    destruct (constrainToStructure p); [reflexivity |].
    now rewrite (tidy_sort_Permutation _ cls Tl Pl). }
  now rewrite E.
Qed.

Lemma listing_order_irrelevant_witness :
  calcCombos (withMenus (menu (Fin (19 # 2)))
                        [Fin 24; Fin 12; Fin 16] [Fin 48; Fin 24; Fin 36; Fin 32])
  = calcCombos (menu (Fin (19 # 2))) /\
  firstPassing (calcCombos (withMenus (menu (Fin (19 # 2)))
                        [Fin 24; Fin 12; Fin 16] [Fin 48; Fin 24; Fin 36; Fin 32]))
  = firstPassing (calcCombos (menu (Fin (19 # 2)))).
Proof.
  apply (listing_order_irrelevant (menu (Fin (19 # 2)))).
  - repeat split; cbn [menu allowedChannelSpacings];
      repeat (constructor; try reflexivity).
    all: rewrite ?InA_cons, ?InA_nil; vm_compute; intuition discriminate.
  - repeat split; cbn [menu allowedClipSpacings];
      repeat (constructor; try reflexivity).
    all: rewrite ?InA_cons, ?InA_nil; vm_compute; intuition discriminate.
  - cbn [menu allowedChannelSpacings].
    apply (Permutation_cons_app [Fin 24] [Fin 16]). apply perm_swap.
  - cbn [menu allowedClipSpacings].
    apply (Permutation_cons_app [Fin 48] [Fin 36; Fin 32]).
    apply (Permutation_cons_app [Fin 48; Fin 36] []). apply perm_swap.
Defined.

(** ** The spacing checkboxes *)

(** [l.includes(v)], which compares by SameValueZero. *)
Definition includes (l : list num) (v : num) : bool :=
  existsb (sameValueZero v) l.

(** The updater a checkbox of the spacing menu passes to its state setter:
    [prev => checked ? prev.concat([v]) : prev.filter(x => x !== v)]. *)
Definition onSpacingChange (checked : bool) (v : num) (prev : list num) : list num :=
  if checked then (prev ++ [v])%list
  else filter (fun x => negb (eqb x v)) prev.

Lemma eqb_sameValueZero x v : eqb x v = true -> sameValueZero x v = true.
Proof. destruct x as [| [] | |], v as [| [] | |]; simpl; auto. Qed.

Lemma sameValueZero_eqb x v : v <> NaN -> sameValueZero v x = eqb x v.
Proof.
  destruct x as [| [] | | a], v as [| [] | | b]; simpl; intros H;
    try reflexivity; try congruence; apply Qeq_bool_comm.
Qed.

Lemma eqb_refl v : v <> NaN -> eqb v v = true.
Proof.
  destruct v as [| [] | | a]; simpl; intros H; try reflexivity; try congruence;
    apply Qeq_bool_refl.
Qed.

Lemma includes_unchecked v prev w :
  sameValueZero w v = false ->
  includes (filter (fun x => negb (eqb x v)) prev) w = includes prev w.
Proof.
  intros H. unfold includes. induction prev as [| x l IH]; [reflexivity |].
  cbn [filter existsb]. destruct (eqb x v) eqn:E; cbn [negb existsb].
  - rewrite IH. destruct (sameValueZero w x) eqn:S; [| reflexivity].
    rewrite (sameValueZero_trans w x v S (eqb_sameValueZero x v E)) in H.
    discriminate.
  - now rewrite IH.
Qed.

(** X7. After a spacing checkbox is ticked, the list includes its value;
    after it is cleared, the list no longer includes its value, unless the
    value is NaN, which [x !== v] never removes; and a change of one checkbox
    leaves unchanged whether the list includes any other value. *)
Theorem checkbox_sets_membership v prev :
  includes (onSpacingChange true v prev) v = true /\
  (v <> NaN -> includes (onSpacingChange false v prev) v = false) /\
  onSpacingChange false NaN prev = prev /\
  (forall checked w, sameValueZero w v = false ->
     includes (onSpacingChange checked v prev) w = includes prev w).
Proof.
  unfold onSpacingChange, includes. repeat split.
  - rewrite existsb_app. cbn [existsb]. rewrite sameValueZero_refl.
    now rewrite orb_true_r.
  - intros N. induction prev as [| x l IH]; [reflexivity |].
    cbn [filter]. destruct (eqb x v) eqn:E; cbn [negb existsb]; [assumption |].
    now rewrite IH, sameValueZero_eqb, E.
  - induction prev as [| x l IH]; [reflexivity |].
    cbn [filter]. assert (E : eqb x NaN = false) by now destruct x as [| [] | |].
    rewrite E. cbn [negb]. now rewrite IH.
  - intros [] w H.
    + rewrite existsb_app. cbn [existsb]. rewrite H. now rewrite !orb_false_r.
    + now apply includes_unchecked.
Qed.

Lemma filter_none v l :
  includes l v = false -> v <> NaN -> filter (fun x => negb (eqb x v)) l = l.
Proof.
  unfold includes. intros H N. induction l as [| x l IH]; [reflexivity |].
  cbn [existsb] in H. apply orb_false_iff in H as [H1 H2].
  cbn [filter]. rewrite sameValueZero_eqb in H1 by assumption.
  rewrite H1. cbn [negb]. now rewrite IH.
Qed.

Lemma filter_NoDupA (f : num -> bool) l :
  NoDupA sameValue0 l -> NoDupA sameValue0 (filter f l).
Proof.
  induction 1 as [| x l Hx N IH]; cbn [filter]; [constructor |].
  destruct (f x); [| assumption]. constructor; [| assumption].
  intros C. apply Hx. rewrite InA_alt in C |- *. destruct C as [y [S Hy]].
  exists y. split; [assumption |]. apply filter_In in Hy. tauto.
Qed.

(** X8. Ticking a checkbox whose value the list does not include and then
    clearing it gives the list back; and the two updates keep every value
    listed at most once, given that a box is ticked only when the list does
    not include its value. *)
Theorem checkbox_round_trip v prev :
  v <> NaN ->
  (includes prev v = false ->
   onSpacingChange false v (onSpacingChange true v prev) = prev) /\
  (NoDupA sameValue0 prev -> includes prev v = false ->
   NoDupA sameValue0 (onSpacingChange true v prev)) /\
  (NoDupA sameValue0 prev -> NoDupA sameValue0 (onSpacingChange false v prev)).
Proof.
  intros N. unfold onSpacingChange. repeat split.
  - intros H. rewrite filter_app. cbn [filter]. rewrite (eqb_refl v N).
    cbn [negb]. rewrite app_nil_r. now apply filter_none.
  - intros D H. apply NoDupA_app; [apply sameValue0_equiv | assumption | |].
    + constructor; [| constructor]. intros C. inversion C.
    + intros x Hx Hv. inversion Hv as [? ? S | ? ? C]; [| inversion C]. subst.
      assert (T : InA sameValue0 v prev).
      { rewrite InA_alt in Hx |- *. destruct Hx as [y [Sy Hy]]. exists y.
        split; [| assumption]. unfold sameValue0 in *.
        eapply sameValueZero_trans; [| exact Sy].
        now rewrite sameValueZero_sym. }
      apply existsb_InA in T. unfold includes in H. congruence.
  - apply filter_NoDupA.
Qed.

Lemma checkbox_round_trip_witness :
  onSpacingChange true (Fin 16) [Fin 12; Fin 24] = [Fin 12; Fin 24; Fin 16] /\
  (includes [Fin 12; Fin 24] (Fin 16) = false ->
   onSpacingChange false (Fin 16) (onSpacingChange true (Fin 16) [Fin 12; Fin 24])
   = [Fin 12; Fin 24]) /\
  (NoDupA sameValue0 [Fin 12; Fin 24] -> includes [Fin 12; Fin 24] (Fin 16) = false ->
   NoDupA sameValue0 (onSpacingChange true (Fin 16) [Fin 12; Fin 24])) /\
  (NoDupA sameValue0 [Fin 12; Fin 24] ->
   NoDupA sameValue0 (onSpacingChange false (Fin 16) [Fin 12; Fin 24])).
Proof.
  split; [reflexivity |].
  apply (checkbox_round_trip (Fin 16) [Fin 12; Fin 24]). discriminate.
Defined.

(** ** The estimated clip count *)

Lemma mul_finite_inv x y :
  isFinite (mul x y) = true -> isFinite x = true /\ isFinite y = true.
Proof.
  destruct x as [| sx | | a], y as [| sy | | b]; cbn [mul isFinite]; auto;
    try discriminate;
    match goal with |- isFinite (if ?c then _ else _) = true -> _ => destruct c end;
    discriminate.
Qed.

Lemma tiny_positive : exists t, App.tiny = Fin t /\ 0 < t.
Proof. eexists. split; [reflexivity |]. reflexivity. Qed.

(** [Math.max(x, 1e-6)] is a positive number unless [x] is NaN. *)
Lemma max_tiny x :
  x <> NaN ->
  Math_max x App.tiny = Inf false \/
  exists d, Math_max x App.tiny = Fin d /\ 0 < d.
Proof.
  destruct tiny_positive as [t [Et Ht]]. rewrite Et. intros N.
  destruct x as [| [] | | a]; try congruence; cbn [Math_max ltb val].
  - right. exists t. auto.
  - left. reflexivity.
  - right. exists t. split; [| assumption].
    assert (B : Qle_bool t 0 = false) by (qbool; assumption). now rewrite B.
  - right. destruct (Qle_bool t a) eqn:B1; cbn [negb].
    + exists a. qbool. split; [| lra].
      destruct (Qle_bool a t); reflexivity.
    + exists t. auto.
Qed.

(** A positive rational is rounded to [+Infinity] or to a finite number that
    is not negative, never to [-0]. *)
Lemma round_positive_cases s q :
  0 < q -> round s q = Inf false \/ exists v, round s q = Fin v /\ 0 <= v.
Proof.
  intros H. unfold round. apply Qgt_alt in H. rewrite H. apply Qgt_alt in H.
  destruct (Qle_bool huge (Round.rmag q)); [now left |].
  right. eexists. split; [reflexivity |]. rewrite Qred_correct.
  apply Round.rmag_nonneg. lra.
Qed.

Lemma ceil_nonneg v :
  0 <= v -> exists z, (0 <= z)%Z /\ Math_ceil (Fin v) = Fin (inject_Z z).
Proof.
  intros H. exists (Qceiling v). split.
  - rewrite <- (Qceiling_Z 0). now apply Qceiling_resp_le.
  - cbn [Math_ceil]. assert (B : Qle_bool 0 v = true) by (qbool; assumption).
    rewrite B. cbn [negb]. now rewrite andb_false_r.
Qed.

Lemma estimatedClips_cases r area :
  isFinite area = true -> Calc.tribAreaFt2 r <> NaN ->
  App.estimatedClipsOnGrid (Some r) area = Inf false \/
  exists z, (0 <= z)%Z /\
            App.estimatedClipsOnGrid (Some r) area = Fin (inject_Z z).
Proof.
  intros Fa Nt. unfold App.estimatedClipsOnGrid.
  destruct (leb area (Fin 0)) eqn:La.
  - right. exists 0%Z. split; [lia | reflexivity].
  - assert (Ea : exists a, area = Fin a /\ 0 < a).
    { destruct area as [| | | a]; try discriminate.
      exists a. split; [reflexivity |]. simpl in La. qbool. assumption. }
    destruct Ea as [a [-> Ha]].
    assert (Sa : Qle_bool 0 a = true) by (qbool; lra).
    destruct (max_tiny _ Nt) as [-> | [d [-> Hd]]].
    + right. exists 0%Z. split; [lia |]. cbn [div sign]. rewrite Sa. reflexivity.
    + assert (Sd : Qle_bool 0 d = true) by (qbool; lra).
      rewrite div_finite; [| reflexivity | reflexivity | simpl; qbool; lra].
      cbn [sign val]. rewrite Sa, Sd. cbn [negb xorb].
      destruct (round_positive_cases false (a / d)) as [-> | [v [-> Hv]]].
      * apply Qlt_shift_div_l; lra.
      * left. reflexivity.
      * right. apply ceil_nonneg, Hv.
Qed.

(** X9. For every finite area, the estimated clip count on the grid of the
    recommendation of any enumerated sequence is a whole number that is not
    negative, or [+Infinity]: it is never NaN, negative or fractional. *)
Theorem estimatedClips_whole p area :
  isFinite area = true ->
  App.estimatedClipsOnGrid (firstPassing (calcCombos p)) area = Inf false \/
  exists z, (0 <= z)%Z /\
    App.estimatedClipsOnGrid (firstPassing (calcCombos p)) area = Fin (inject_Z z).
Proof.
  intros Fa. destruct (firstPassing (calcCombos p)) as [r |] eqn:E.
  - apply estimatedClips_cases; [assumption |].
    unfold firstPassing in E. apply find_some in E as [Hin Hp].
    destruct (calcCombos_fields p r Hin) as [_ [El [Ep _]]].
    rewrite Ep in Hp. apply andb_true_iff in Hp as [F _].
    rewrite El in F. apply mul_finite_inv in F as [F _].
    intros C. rewrite C in F. discriminate.
  - right. exists 0%Z. split; [lia | reflexivity].
Qed.

Lemma estimatedClips_whole_witness :
  App.estimatedClipsOnGrid (firstPassing (calcCombos (menu (Fin (19 # 2))))) (Fin 400)
  = Fin 113 /\
  (App.estimatedClipsOnGrid (firstPassing (calcCombos (menu (Fin (19 # 2))))) (Fin 400)
   = Inf false \/
   exists z, (0 <= z)%Z /\
     App.estimatedClipsOnGrid (firstPassing (calcCombos (menu (Fin (19 # 2))))) (Fin 400)
     = Fin (inject_Z z)).
Proof.
  split; [run |].
  apply (estimatedClips_whole (menu (Fin (19 # 2))) (Fin 400)). reflexivity.
Defined.

(** ** Cloud counts and the mount mode *)

(** The same state with other cloud counts. *)
Definition withClouds (st : Component.State) (n1 n2 n3 n4 : num) : Component.State :=
  {| Component.area := Component.area st;
     Component.includeOSB := Component.includeOSB st;
     Component.osbPsf := Component.osbPsf st;
     Component.drywallLayers := Component.drywallLayers st;
     Component.drywallPsf := Component.drywallPsf st;
     Component.insulPsf := Component.insulPsf st;
     Component.miscPsf := Component.miscPsf st;
     Component.mountMode := Component.mountMode st;
     Component.c4x1 := n1;
     Component.c4x2 := n2;
     Component.c4x3 := n3;
     Component.c4x4 := n4;
     Component.allowedChannelSpacings := Component.allowedChannelSpacings st;
     Component.allowedClipSpacings := Component.allowedClipSpacings st;
     Component.constrainToStructure := Component.constrainToStructure st;
     Component.structureSpacing := Component.structureSpacing st |}.

(** X10. Outside the distributed mount mode the cloud counts reach neither
    the grid load nor the enumerated sequence nor the recommendation nor the
    estimated clip count on the grid: they only set the dedicated clip
    count. *)
Theorem clouds_off_the_grid st n1 n2 n3 n4 :
  Component.mountMode st <> "distributed" ->
  Component.gridPsf (withClouds st n1 n2 n3 n4) = Component.gridPsf st /\
  Component.combos (withClouds st n1 n2 n3 n4) = Component.combos st /\
  Component.rec (withClouds st n1 n2 n3 n4) = Component.rec st /\
  Component.estimatedClipsOnGrid (withClouds st n1 n2 n3 n4)
  = Component.estimatedClipsOnGrid st.
Proof.
  intros N. apply String.eqb_neq in N.
  assert (G : Component.gridPsf (withClouds st n1 n2 n3 n4) = Component.gridPsf st).
  { unfold Component.gridPsf, Component.cloudAvgPsf, calcCloudAvgPsf.
    cbn [withClouds Component.mountMode]. now rewrite N. }
  assert (C : Component.combos (withClouds st n1 n2 n3 n4) = Component.combos st).
  { unfold Component.combos. now rewrite G. }
  unfold Component.estimatedClipsOnGrid, Component.rec. rewrite C.
  split; [exact G |]. split; [reflexivity |]. split; reflexivity.
Qed.

Lemma clouds_off_the_grid_witness :
  Component.gridPsf (withClouds (stateIn "dedicated") (Fin 7) (Fin 0) (Fin 1) (Fin 0))
  = Component.gridPsf (stateIn "dedicated") /\
  Component.combos (withClouds (stateIn "dedicated") (Fin 7) (Fin 0) (Fin 1) (Fin 0))
  = Component.combos (stateIn "dedicated") /\
  Component.rec (withClouds (stateIn "dedicated") (Fin 7) (Fin 0) (Fin 1) (Fin 0))
  = Component.rec (stateIn "dedicated") /\
  Component.estimatedClipsOnGrid
    (withClouds (stateIn "dedicated") (Fin 7) (Fin 0) (Fin 1) (Fin 0))
  = Component.estimatedClipsOnGrid (stateIn "dedicated").
Proof.
  apply (clouds_off_the_grid (stateIn "dedicated")). discriminate.
Defined.

(** ** A heavier ceiling *)

Lemma round_nonneg_notNInf s q : 0 <= q -> round s q <> Inf true.
Proof.
  intros H C. destruct (round_nonneg s q H) as [E | [F _]];
    rewrite C in *; discriminate.
Qed.

(** X11. Over positive spacing candidates and a capacity that is not
    negative, for finite grid loads [0 <= g1 <= g2]: when there is a
    recommendation under the heavier load [g2], there is one under [g1], and
    its spacing product is at least that of the recommendation under [g2].
    A heavier ceiling never gets a wider recommended spacing. *)
Theorem heavier_never_wider p g1 g2 c2 :
  positiveSpacings p -> leb (Fin 0) (clipCap p) = true ->
  isFinite g1 = true -> isFinite g2 = true ->
  leb (Fin 0) g1 = true -> leb g1 g2 = true ->
  firstPassing (calcCombos (withGridPsf p g2)) = Some c2 ->
  exists c1,
    firstPassing (calcCombos (withGridPsf p g1)) = Some c1 /\
    geb (spacingProduct c1) (spacingProduct c2) = true.
Proof.
  intros Hp Hcap F1 F2 P1 H E2.
  assert (Hp1 : positiveSpacings (withGridPsf p g1)) by exact Hp.
  assert (Hp2 : positiveSpacings (withGridPsf p g2)) by exact Hp.
  destruct (firstPassing_StronglySorted _ _ (calcCombos_StronglySorted _ Hp2) E2)
    as [In2 [Pass2 _]].
  apply calcCombos_In in In2 as [ch [cl [Hch [Hcl Ec2]]]].
  change (channels (withGridPsf p g2)) with (channels p) in Hch.
  change (clips (withGridPsf p g2)) with (clips p) in Hcl.
  cbn [withGridPsf gridPsf clipCap] in Ec2.
  pose proof (channels_positive p Hp) as Pc. pose proof (clips_positive p Hp) as Pl.
  rewrite Forall_forall in Pc, Pl.
  set (c1' := combo g1 (clipCap p) ch cl).
  assert (In1 : In c1' (calcCombos (withGridPsf p g1))).
  { apply calcCombos_In. exists ch, cl. auto. }
  (* the same pair of spacings passes under the lighter load *)
  assert (Pass1 : pass c1' = true).
  { rewrite Ec2 in Pass2. unfold c1'. cbn [pass combo] in Pass2 |- *.
    apply andb_true_iff in Pass2 as [Fl2 Le2].
    assert (L : leb (mul (div (mul ch cl) (Fin 144)) g1)
                    (mul (div (mul ch cl) (Fin 144)) g2) = true)
      by (apply loadPerClip_monotone; auto).
    destruct (mul_finite_inv _ _ Fl2) as [Ft _].
    assert (Nn : mul (div (mul ch cl) (Fin 144)) g1 <> Inf true).
    { rewrite mul_finite by assumption. apply round_nonneg_notNInf.
      destruct (tribArea_cases ch cl (Pc _ Hch) (Pl _ Hcl)) as [Et | [_ Pt]].
      - cbv zeta in Et. rewrite Et in Ft. discriminate.
      - cbv zeta in Pt. rewrite leb_finite in P1 by (reflexivity || assumption).
        cbn [val] in P1. qbool. apply Qmult_le_0_compat; assumption. }
    rewrite (leb_finite_l _ _ L Fl2 Nn). cbn [andb].
    eapply leb_trans; eassumption. }
  destruct (firstPassing (calcCombos (withGridPsf p g1))) as [c1 |] eqn:E1.
  - exists c1. split; [reflexivity |].
    destruct (firstPassing_StronglySorted _ _ (calcCombos_StronglySorted _ Hp1) E1)
      as [Inc1 [_ Max]].
    specialize (Max c1' In1 Pass1). unfold gtb in Max.
    assert (Same : spacingProduct c1' = spacingProduct c2) by now rewrite Ec2.
    rewrite Same in Max. unfold geb.
    apply ltb_false_leb; [| | exact Max].
    + eapply leb_notNaN_r, (out_product _ _ Hp1).
      unfold calcCombos in Inc1. exact (proj1 (sort_In _ _ _) Inc1).
    + rewrite <- Same. eapply leb_notNaN_r, (out_product _ _ Hp1).
      unfold calcCombos in In1. exact (proj1 (sort_In _ _ _) In1).
  - exfalso. unfold firstPassing in E1.
    rewrite (find_none _ _ E1 c1' In1) in Pass1. discriminate.
Qed.

Lemma heavier_never_wider_witness :
  firstPassing (calcCombos (menu (Fin (17 # 2))))
  = Some (combo (Fin (17 # 2)) App.CLIP_CAP (Fin 12) (Fin 48)) /\
  exists c1,
    firstPassing (calcCombos (menu (Fin 4))) = Some c1 /\
    geb (spacingProduct c1)
        (spacingProduct (combo (Fin (17 # 2)) App.CLIP_CAP (Fin 12) (Fin 48))) = true.
Proof.
  assert (E : firstPassing (calcCombos (menu (Fin (17 # 2))))
              = Some (combo (Fin (17 # 2)) App.CLIP_CAP (Fin 12) (Fin 48))) by run.
  split; [exact E |].
  apply (heavier_never_wider (menu (Fin 0)) (Fin 4) (Fin (17 # 2)));
    [apply menu_positive | run | run | run | run | run | exact E].
Defined.

(** ** The sign of the grid load *)

(** [amount x]: [x] is a finite number that is not negative. *)
Definition amount (x : num) : Prop := isFinite x = true /\ leb (Fin 0) x = true.

Lemma ge0_cases x :
  leb (Fin 0) x = true -> x = Inf false \/ (isFinite x = true /\ 0 <= val x).
Proof.
  destruct x as [| [] | | a]; simpl; intros H; try discriminate; auto.
  - right. split; [reflexivity | apply Qle_refl].
  - right. qbool. auto.
Qed.

Lemma round_ge0 s q : 0 <= q -> leb (Fin 0) (round s q) = true.
Proof.
  intros H. apply leb_trans with (round false 0); [reflexivity |].
  now apply round_mono.
Qed.

Lemma amount_val x : amount x -> isFinite x = true /\ 0 <= val x.
Proof.
  intros [F G]. split; [assumption |].
  destruct (ge0_cases x G) as [-> | [_ H]]; [discriminate | assumption].
Qed.

Lemma mul_ge0 x y : amount x -> amount y -> leb (Fin 0) (mul x y) = true.
Proof.
  intros Hx Hy. destruct (amount_val x Hx) as [Fx Px].
  destruct (amount_val y Hy) as [Fy Py].
  rewrite mul_finite by assumption. apply round_ge0.
  now apply Qmult_le_0_compat.
Qed.

Lemma add_ge0 x y :
  leb (Fin 0) x = true -> leb (Fin 0) y = true -> leb (Fin 0) (add x y) = true.
Proof.
  intros Hx Hy.
  destruct (ge0_cases x Hx) as [-> | [Fx Px]], (ge0_cases y Hy) as [-> | [Fy Py]].
  - reflexivity.
  - destruct y; try discriminate; reflexivity.
  - destruct x; try discriminate; reflexivity.
  - rewrite add_finite by assumption. apply round_ge0. lra.
Qed.

Lemma div_ge0 x y :
  leb (Fin 0) x = true -> isFinite y = true -> gtb y (Fin 0) = true ->
  leb (Fin 0) (div x y) = true.
Proof.
  intros Hx Fy Gy. destruct (finite_positive y Fy Gy) as [b [-> Hb]].
  destruct (div_positive x b Hx Hb) as [[_ ->] | [_ [Px [s ->]]]]; [reflexivity |].
  apply round_ge0. apply Qle_shift_div_l; lra.
Qed.

(** X12. When every numeric input of the component is a finite number that
    is not negative, the base assembly load, the total cloud weight, the
    average cloud load and the grid load are not negative and not NaN (an
    overflow gives [+Infinity]); so no load per clip is negative. *)
Theorem loads_not_negative st :
  amount (Component.area st) -> amount (Component.osbPsf st) ->
  amount (Component.drywallLayers st) -> amount (Component.drywallPsf st) ->
  amount (Component.insulPsf st) -> amount (Component.miscPsf st) ->
  amount (Component.c4x1 st) -> amount (Component.c4x2 st) ->
  amount (Component.c4x3 st) -> amount (Component.c4x4 st) ->
  leb (Fin 0) (Component.baseAssemblyPsf st) = true /\
  leb (Fin 0) (Component.cloudAvgPsf st) = true /\
  leb (Fin 0) (Component.gridPsf st) = true.
Proof.
  intros Ha Ho Hl Hd Hi Hm H1 H2 H3 H4.
  assert (A15 : amount (Fin 15)) by (split; reflexivity).
  assert (A30 : amount (Fin 30)) by (split; reflexivity).
  assert (A45 : amount (Fin 45)) by (split; reflexivity).
  assert (A60 : amount (Fin 60)) by (split; reflexivity).
  assert (B : leb (Fin 0) (Component.baseAssemblyPsf st) = true).
  { unfold Component.baseAssemblyPsf, calcBaseAssemblyPsf.
    cbn [Calc.includeOSB Calc.osbPsf Calc.drywallLayers Calc.drywallPsf Calc.insulPsf].
    apply add_ge0; [apply add_ge0 | apply Hi].
    - destruct (Component.includeOSB st); [apply Ho | reflexivity].
    - now apply mul_ge0. }
  assert (C : leb (Fin 0) (Component.cloudAvgPsf st) = true).
  { unfold Component.cloudAvgPsf, calcCloudAvgPsf.
    destruct (String.eqb (Component.mountMode st) "distributed"
              && gtb (Component.area st) (Fin 0)) eqn:G; [| reflexivity].
    apply andb_true_iff in G as [_ G].
    apply div_ge0; [| apply Ha | exact G].
    unfold App.totalCloudWeight. repeat apply add_ge0; now apply mul_ge0. }
  repeat split; try assumption.
  unfold Component.gridPsf, App.gridPsf.
  apply add_ge0; [now apply add_ge0 | apply Hm].
Qed.

Lemma loads_not_negative_witness :
  leb (Fin 0) (Component.baseAssemblyPsf (stateIn "distributed")) = true /\
  leb (Fin 0) (Component.cloudAvgPsf (stateIn "distributed")) = true /\
  leb (Fin 0) (Component.gridPsf (stateIn "distributed")) = true.
Proof.
  apply (loads_not_negative (stateIn "distributed")); split; run.
Defined.

(** ** The displayed limits *)

Lemma maxAreaPerClip_ge0 g : leb (Fin 0) (App.maxAreaPerClip g) = true.
Proof.
  unfold App.maxAreaPerClip. destruct (gtb g (Fin 0)) eqn:G; [| reflexivity].
  unfold gtb in G. destruct g as [| [] | | a]; try discriminate; [reflexivity |].
  simpl in G. qbool.
  destruct (div_positive App.CLIP_CAP a eq_refl G) as [[C _] | [_ [_ [s ->]]]];
    [discriminate |].
  apply round_ge0. cbn [val App.CLIP_CAP]. apply Qle_shift_div_l; lra.
Qed.

Lemma mul144_monotone x y :
  leb (Fin 0) x = true -> leb x y = true ->
  leb (mul x (Fin 144)) (mul y (Fin 144)) = true.
Proof.
  intros Hx H.
  assert (Hy : leb (Fin 0) y = true) by (eapply leb_trans; eassumption).
  destruct (ge0_cases x Hx) as [-> | [Fx Px]], (ge0_cases y Hy) as [-> | [Fy Py]].
  - reflexivity.
  - destruct y; discriminate.
  - rewrite mul_finite by (reflexivity || assumption).
    apply leb_Inf, round_notNaN.
  - rewrite !mul_finite by (reflexivity || assumption).
    apply round_mono. rewrite leb_finite in H by assumption. qbool.
    cbn [val]. nra.
Qed.

(** X13. The two displayed limits, the largest tributary area per clip and
    the largest spacing product, are never NaN and never negative, and a
    larger grid load never raises either of them. *)
Theorem limits_antitone g1 g2 :
  leb g1 g2 = true ->
  leb (Fin 0) (App.maxAreaPerClip g2) = true /\
  leb (App.maxAreaPerClip g2) (App.maxAreaPerClip g1) = true /\
  leb (Fin 0) (App.maxSpacingProduct (App.maxAreaPerClip g2)) = true /\
  leb (App.maxSpacingProduct (App.maxAreaPerClip g2))
      (App.maxSpacingProduct (App.maxAreaPerClip g1)) = true.
Proof.
  intros H.
  assert (A : leb (App.maxAreaPerClip g2) (App.maxAreaPerClip g1) = true).
  { unfold App.maxAreaPerClip at 2. destruct (gtb g1 (Fin 0)) eqn:G1.
    - assert (G2 : gtb g2 (Fin 0) = true) by (eapply ltb_leb_trans; eassumption).
      unfold App.maxAreaPerClip. rewrite G2. unfold gtb in G1, G2.
      destruct g1 as [| [] | | a]; try discriminate.
      + destruct g2 as [| [] | |]; try discriminate. reflexivity.
      + simpl in G1. qbool.
        destruct (div_positive App.CLIP_CAP a eq_refl G1) as [[C _] | [_ [_ [sa ->]]]];
          [discriminate |].
        destruct g2 as [| [] | | b]; try discriminate.
        * apply leb_trans with (Fin 0); [reflexivity |]. apply round_ge0.
          cbn [val App.CLIP_CAP]. apply Qle_shift_div_l; lra.
        * simpl in G2, H. qbool.
          destruct (div_positive App.CLIP_CAP b eq_refl G2)
            as [[C _] | [_ [_ [sb ->]]]]; [discriminate |].
          apply round_mono. cbn [val App.CLIP_CAP].
          assert (I : / b <= / a).
          { apply Qle_shift_inv_l; [assumption |].
            rewrite Qmult_comm. apply Qle_shift_div_r; lra. }
          unfold Qdiv. nra.
    - apply leb_Inf. apply (leb_notNaN_r (Fin 0)), maxAreaPerClip_ge0. }
  repeat split.
  - apply maxAreaPerClip_ge0.
  - exact A.
  - unfold App.maxSpacingProduct.
    apply leb_trans with (mul (Fin 0) (Fin 144)); [reflexivity |].
    apply mul144_monotone; [reflexivity | apply maxAreaPerClip_ge0].
  - unfold App.maxSpacingProduct.
    apply mul144_monotone; [apply maxAreaPerClip_ge0 | exact A].
Qed.

Lemma limits_antitone_witness :
  App.maxSpacingProduct (App.maxAreaPerClip (Fin 9)) = Fin 576 /\
  leb (Fin 0) (App.maxAreaPerClip (Fin 9)) = true /\
  leb (App.maxAreaPerClip (Fin 9)) (App.maxAreaPerClip (Fin 4)) = true /\
  leb (Fin 0) (App.maxSpacingProduct (App.maxAreaPerClip (Fin 9))) = true /\
  leb (App.maxSpacingProduct (App.maxAreaPerClip (Fin 9)))
      (App.maxSpacingProduct (App.maxAreaPerClip (Fin 4))) = true.
Proof.
  split; [run |]. apply (limits_antitone (Fin 4) (Fin 9)). reflexivity.
Defined.

(** ** The number field

    [NumberField] keeps the typed text as a draft and commits it on blur or
    Enter.  [Number], the conversion of a string to a number, is the
    language's own: the properties below hold whatever it returns. *)

Module NumberField.
Import JsNum.

Local Open Scope string_scope.

(** [s.replace(/c/g, "")]: [s] without the character [c]. *)
Fixpoint removeAll (c : Ascii.ascii) (s : string) : string :=
  match s with
  | EmptyString => EmptyString
  | String a s' => if Ascii.eqb a c then removeAll c s' else String a (removeAll c s')
  end.

Section Field.
Variable Number : string -> num.

(** The result is [None] for [null]. *)
Definition parseNumber (txt : string) : option num :=
  if String.eqb txt "" || String.eqb txt "-" || String.eqb txt "." then None
  else
    let cleaned := removeAll " "%char (removeAll ","%char txt) in
    let n := Number cleaned in
    if isFinite n then Some n else None.

(** [commit]: the value passed to [setValue], or [None] when [setValue] is
    not called.  [min] is [None] when the property is not a number. *)
Definition commit (min : option num) (txt : string) : option num :=
  match parseNumber txt with
  | None => None
  | Some n =>
      let clamped := match min with
                     | Some m => Math_max n m
                     | None => n
                     end in
      Some clamped
  end.
End Field.

End NumberField.

Lemma removeAll_app c s1 s2 :
  NumberField.removeAll c (s1 ++ s2)
  = NumberField.removeAll c s1 ++ NumberField.removeAll c s2.
Proof.
  induction s1 as [| a s1 IH]; [reflexivity |].
  simpl. destruct (Ascii.eqb a c); simpl; now rewrite IH.
Qed.

Lemma Math_max_cases x y :
  x <> NaN -> y <> NaN ->
  (Math_max x y = x \/ Math_max x y = y) /\
  leb x (Math_max x y) = true /\ leb y (Math_max x y) = true.
Proof.
  intros Nx Ny.
  assert (E : Math_max x y = if ltb x y then y
                             else if ltb y x then x
                             else match x with NZero => y | _ => x end).
  { destruct x, y; try congruence; reflexivity. }
  rewrite E. destruct (ltb x y) eqn:L1.
  - repeat split; auto using ltb_leb.
    destruct y as [| [] | | b]; simpl; try congruence; qbool; lra.
  - destruct (ltb y x) eqn:L2.
    + repeat split; auto using ltb_leb.
      destruct x as [| [] | | a]; simpl; try congruence; qbool; lra.
    + pose proof (ltb_false_leb x y Nx Ny L1) as G1.
      pose proof (ltb_false_leb y x Ny Nx L2) as G2.
      destruct x as [| [] | | a]; try congruence; repeat split; auto;
        destruct y as [| [] | | b]; simpl in *; try congruence; qbool; lra.
Qed.

(** X14. Whatever text is committed, [setValue] never receives NaN or an
    infinity from a field with no minimum or with a finite minimum, and with
    a minimum that is not NaN it receives a value that is at least the
    minimum; for the texts [""], ["-"] and ["."] it is not called. *)
Theorem commit_guard (Number : string -> num) min txt :
  (forall v, NumberField.commit Number min txt = Some v ->
     match min with
     | None => isFinite v = true
     | Some m => m <> NaN ->
                 geb v m = true /\ (isFinite m = true -> isFinite v = true)
     end) /\
  NumberField.commit Number min "" = None /\
  NumberField.commit Number min "-" = None /\
  NumberField.commit Number min "." = None.
Proof.
  split; [| repeat split].
  intros v. unfold NumberField.commit, NumberField.parseNumber.
  destruct (String.eqb txt "" || String.eqb txt "-" || String.eqb txt ".");
    [discriminate |].
  cbv zeta.
  destruct (isFinite (Number _)) eqn:F; [| discriminate].
  intros [= <-]. destruct min as [m |]; [| exact F].
  intros Nm.
  assert (Nn : Number (NumberField.removeAll " "%char (NumberField.removeAll ","%char txt)) <> NaN)
    by (intros C; rewrite C in F; discriminate).
  destruct (Math_max_cases _ m Nn Nm) as [[E | E] [_ G]].
  - split; [exact G |]. intros _. now rewrite E.
  - split; [exact G |]. intros Fm. now rewrite E.
Qed.

(** X15. Commas and plain spaces in the committed text are ignored: a text
    and the same text with a comma or a space inserted anywhere parse to the
    same result, when neither is one of the three ignored texts. *)
Theorem separators_ignored (Number : string -> num) s1 s2 sep :
  sep = "," \/ sep = " " ->
  let plain := s1 ++ s2 in
  let spaced := s1 ++ sep ++ s2 in
  (String.eqb plain "" || String.eqb plain "-" || String.eqb plain ".") = false ->
  (String.eqb spaced "" || String.eqb spaced "-" || String.eqb spaced ".") = false ->
  NumberField.parseNumber Number spaced = NumberField.parseNumber Number plain.
Proof.
  intros Hs plain spaced Hp Hsp. unfold NumberField.parseNumber.
  rewrite Hp, Hsp. cbv zeta.
  assert (E : NumberField.removeAll " "%char (NumberField.removeAll ","%char spaced)
              = NumberField.removeAll " "%char (NumberField.removeAll ","%char plain)).
  { unfold spaced, plain. rewrite !removeAll_app.
    destruct Hs as [-> | ->]; reflexivity. }
  now rewrite E.
Qed.

Lemma separators_ignored_witness :
  NumberField.parseNumber (fun s => if String.eqb s "1000" then Fin 1000 else NaN)
                          "1,000"
  = NumberField.parseNumber (fun s => if String.eqb s "1000" then Fin 1000 else NaN)
                            "1000".
Proof.
  apply (separators_ignored _ "1" "000" ","); [left; reflexivity | reflexivity ..].
Defined.

(** ** Rounding for display *)

(** [Math.round(x)]: the nearest integer, a tie going up; a value in
    [[-0.5, 0)] gives [-0]. *)
Definition Math_round (x : num) : num :=
  match x with
  | Fin q => let r := Qfloor (q + (1 # 2)) in
             if Z.eqb r 0 && negb (Qle_bool 0 q) then NZero else Fin (inject_Z r)
  | _ => x
  end.

(** [function round2(x) { return Math.round(x * 100) / 100; }] *)
Definition round2 (x : num) : num :=
  div (Math_round (mul x (Fin 100))) (Fin 100).

Lemma leb_NInf x : x <> NaN -> leb (Inf true) x = true.
Proof. destruct x as [| [] | |]; simpl; congruence. Qed.

(** A function that keeps the infinities, is never NaN on finite numbers and
    is monotone on them is monotone on all numbers. *)
Lemma monotone_ext (f : num -> num) :
  (forall s, f (Inf s) = Inf s) ->
  (forall x, isFinite x = true -> f x <> NaN) ->
  (forall x y, isFinite x = true -> isFinite y = true ->
               leb x y = true -> leb (f x) (f y) = true) ->
  forall x y, leb x y = true -> leb (f x) (f y) = true.
Proof.
  intros Hi Hn Hm x y H.
  destruct (isFinite x) eqn:Fx, (isFinite y) eqn:Fy.
  - now apply Hm.
  - destruct y as [| [] | |]; try discriminate.
    + destruct x; discriminate.
    + destruct x; discriminate.
    + rewrite Hi. apply leb_Inf, Hn, Fx.
  - destruct x as [| [] | |]; try discriminate.
    + rewrite Hi. apply leb_NInf, Hn, Fy.
    + destruct y; discriminate.
  - destruct x as [| [] | |], y as [| [] | |]; try discriminate;
      rewrite !Hi; reflexivity.
Qed.

Lemma mul_pos_monotone c x y :
  0 < c -> leb x y = true -> leb (mul x (Fin c)) (mul y (Fin c)) = true.
Proof.
  intros Hc.
  assert (Z : Qeq_bool c 0 = false) by (qbool; lra).
  assert (S : Qle_bool 0 c = true) by (qbool; lra).
  apply (monotone_ext (fun x => mul x (Fin c))).
  - intros s. cbn [mul isZero sign]. rewrite Z, S. now destruct s.
  - intros a Fa. rewrite mul_finite by (reflexivity || assumption).
    apply round_notNaN.
  - intros a b Fa Fb H. rewrite !mul_finite by (reflexivity || assumption).
    apply round_mono. rewrite leb_finite in H by assumption. qbool.
    cbn [val]. nra.
Qed.

Lemma val_Math_round x :
  isFinite x = true ->
  isFinite (Math_round x) = true /\
  val (Math_round x) == inject_Z (Qfloor (val x + (1 # 2))).
Proof.
  destruct x as [| | | q]; try discriminate; intros _.
  - split; reflexivity.
  - cbn [Math_round val].
    destruct (Z.eqb (Qfloor (q + (1 # 2))) 0 && negb (Qle_bool 0 q)) eqn:E.
    + apply andb_true_iff in E as [E _]. apply Z.eqb_eq in E. rewrite E.
      split; reflexivity.
    + split; reflexivity.
Qed.

Lemma Math_round_monotone x y :
  leb x y = true -> leb (Math_round x) (Math_round y) = true.
Proof.
  apply (monotone_ext Math_round).
  - reflexivity.
  - intros a Fa C. destruct (val_Math_round a Fa) as [R _].
    rewrite C in R. discriminate.
  - intros a b Fa Fb H.
    destruct (val_Math_round a Fa) as [Ra Va].
    destruct (val_Math_round b Fb) as [Rb Vb].
    rewrite leb_finite in H |- * by assumption. qbool.
    rewrite Va, Vb, <- Zle_Qle. apply Qfloor_resp_le. lra.
Qed.

Lemma div_pos_monotone c x y :
  0 < c -> leb x y = true -> leb (div x (Fin c)) (div y (Fin c)) = true.
Proof.
  intros Hc.
  assert (Z : isZero (Fin c) = false) by (simpl; qbool; lra).
  assert (S : Qle_bool 0 c = true) by (qbool; lra).
  apply (monotone_ext (fun x => div x (Fin c))).
  - intros s. cbn [div sign]. rewrite S. now destruct s.
  - intros a Fa. rewrite div_finite by (reflexivity || assumption).
    apply round_notNaN.
  - intros a b Fa Fb H. rewrite !div_finite by (reflexivity || assumption).
    apply round_mono. rewrite leb_finite in H by assumption. qbool.
    cbn [val]. assert (I : 0 < / c) by now apply Qinv_lt_0_compat.
    unfold Qdiv. nra.
Qed.

(** X16. Rounding to two decimals for display keeps the order: of two numbers
    the smaller never shows a larger rounded value. *)
Theorem round2_monotone x y :
  leb x y = true -> leb (round2 x) (round2 y) = true.
Proof.
  intros H. unfold round2.
  apply div_pos_monotone; [reflexivity |].
  apply Math_round_monotone. apply mul_pos_monotone; [reflexivity | exact H].
Qed.

Lemma round2_monotone_witness :
  round2 (lit (2613 # 100)) = lit (2613 # 100) /\
  leb (round2 (Fin (1045 # 40))) (round2 (Fin (392 # 10))) = true.
Proof.
  split; [run |].
  apply (round2_monotone (Fin (1045 # 40)) (Fin (392 # 10))). reflexivity.
Defined.

(** X17. Rounding for display can overflow: a finite number [x] with
    [x * 100] at or above [2^1024] is shown as [Infinity], so the guard
    [isFinite(c.loadPerClip) ? round2(c.loadPerClip) : "-"] of the table does
    not keep [Infinity] off the screen. *)
Theorem round2_overflow x :
  isFinite x = true -> huge <= val x * 100 -> round2 x = Inf false.
Proof.
  intros Fx H. unfold round2.
  rewrite mul_finite by (assumption || reflexivity). cbn [val].
  pose proof (round_mono false (xorb (sign x) (sign (Fin 100))) _ _ H) as L.
  assert (E : round false huge = Inf false) by (vm_compute; reflexivity).
  rewrite E in L.
  destruct (round (xorb (sign x) (sign (Fin 100))) (val x * 100))
    as [| [] | |];
    [ discriminate L | discriminate L | reflexivity
    | discriminate L | discriminate L ].
Qed.

Lemma round2_overflow_witness : round2 (Fin (Round.two 1020)) = Inf false.
Proof.
  apply (round2_overflow (Fin (Round.two 1020))); [reflexivity |].
  vm_compute. discriminate.
Defined.

(** ** The test harness and the component *)

(** The configuration [TestPanel] would be given for a state of the
    component: the same fields, with the total cloud weight the component
    derives. *)
Definition cfgOfState (st : Component.State) : TestPanel.Cfg :=
  {| TestPanel.assembly :=
       {| Calc.includeOSB := Component.includeOSB st;
          Calc.osbPsf := Component.osbPsf st;
          Calc.drywallLayers := Component.drywallLayers st;
          Calc.drywallPsf := Component.drywallPsf st;
          Calc.insulPsf := Component.insulPsf st |};
     TestPanel.mountMode := Component.mountMode st;
     TestPanel.area := Component.area st;
     TestPanel.totalCloudWeight :=
       Some (App.totalCloudWeight (Component.c4x1 st) (Component.c4x2 st)
                                  (Component.c4x3 st) (Component.c4x4 st));
     TestPanel.miscPsf := Some (Component.miscPsf st);
     TestPanel.channelSpacings := Component.allowedChannelSpacings st;
     TestPanel.clipSpacings := Component.allowedClipSpacings st;
     TestPanel.constrain := Some (Component.constrainToStructure st);
     TestPanel.structure := Some (Component.structureSpacing st) |}.

(** [x || d] is [x]: [x] is truthy, or is the default itself. *)
Definition kept (x d : num) : Prop := TestPanel.orNum (Some x) d = x.

(** [x || d] is [d] although [x] is given: [x] is a zero or NaN. *)
Lemma orNum_falsy x d :
  isZero x = true \/ x = NaN -> TestPanel.orNum (Some x) d = d.
Proof.
  intros [H | ->]; [| reflexivity]. unfold TestPanel.orNum. now rewrite H.
Qed.

Lemma orNum_truthy x d :
  isZero x = false -> x <> NaN -> TestPanel.orNum (Some x) d = x.
Proof.
  intros H N. unfold TestPanel.orNum. rewrite H. now destruct x.
Qed.

(** X18. The test harness shares the calculation of the component: on the
    inputs of a component state whose cloud weight, misc load and structure
    spacing survive the [||] defaults of [run] (each is truthy, or is the
    default itself), [run] yields the grid load, the combinations and the
    recommendation the component derives. *)
Theorem harness_agrees (st : Component.State) :
  kept (App.totalCloudWeight (Component.c4x1 st) (Component.c4x2 st)
                             (Component.c4x3 st) (Component.c4x4 st)) (Fin 0) ->
  kept (Component.miscPsf st) (Fin 0) ->
  kept (Component.structureSpacing st) (Fin 48) ->
  TestPanel.grid (TestPanel.run (cfgOfState st)) = Component.gridPsf st /\
  TestPanel.combos (TestPanel.run (cfgOfState st)) = Component.combos st /\
  TestPanel.rec (TestPanel.run (cfgOfState st)) = Component.rec st.
Proof.
  intros Hw Hm Hs.
  assert (G : TestPanel.grid (TestPanel.run (cfgOfState st))
              = Component.gridPsf st).
  { unfold TestPanel.run, cfgOfState, Component.gridPsf, App.gridPsf,
      Component.baseAssemblyPsf, Component.cloudAvgPsf.
    cbn [TestPanel.grid TestPanel.assembly TestPanel.mountMode TestPanel.area
         TestPanel.totalCloudWeight TestPanel.miscPsf].
    unfold kept in Hw, Hm. rewrite Hw, Hm. reflexivity. }
  assert (C : TestPanel.combos (TestPanel.run (cfgOfState st))
              = Component.combos st).
  { unfold Component.combos. rewrite <- G.
    unfold TestPanel.run, cfgOfState.
    cbn [TestPanel.grid TestPanel.combos TestPanel.assembly TestPanel.mountMode
         TestPanel.area TestPanel.totalCloudWeight TestPanel.miscPsf
         TestPanel.channelSpacings TestPanel.clipSpacings TestPanel.constrain
         TestPanel.structure].
    unfold kept in Hs. rewrite Hs.
    destruct (Component.constrainToStructure st); reflexivity. }
  split; [exact G |]. split; [exact C |].
  unfold Component.rec. rewrite <- C. reflexivity.
Qed.

Lemma harness_agrees_witness :
  TestPanel.grid (TestPanel.run (cfgOfState distributedState))
  = Component.gridPsf distributedState /\
  TestPanel.combos (TestPanel.run (cfgOfState distributedState))
  = Component.combos distributedState /\
  TestPanel.rec (TestPanel.run (cfgOfState distributedState))
  = Component.rec distributedState.
Proof.
  apply (harness_agrees distributedState); vm_compute; reflexivity.
Defined.
